(** * flashheap: a packet heap kept in a flash-like device

    Shallow embedding of [flashheap.c] (Michael Hayes, mmculib) and the
    properties of its allocator: scan, split, coalesce, iteration.

    The width of [flashheap_size_t], which [flashheap.h] fixes, is a
    parameter of the development ([hbytes], the value of
    [sizeof (flashheap_packet_t)]); addresses ([flashheap_addr_t]) are
    taken to be signed integers of the same width.
    Integers are values of [Z]; every place where the C code stores the
    result of an arithmetic expression into such a variable is wrapped to
    that width by [wrap].  Where C would evaluate an operand at a wider
    type (integer promotion, the unsigned [sizeof]) the stored result is
    the same modulo the width; only comparisons on the least value of the
    type could differ, and the statements below exclude that value.

    The device behind [heap->read] and [heap->write] is a byte-addressed
    store; a cell that was never written reads 255, as erased flash does.
    A transfer either moves all the bytes asked for, or faults and moves
    none (this is how the RAM device of the repository, [ram_msd.c],
    behaves).  Which transfers fault is given by a schedule carried by the
    device, one entry per transfer, so that faults may come and go over
    time.  The device also keeps the list of the transfers it was asked
    for. *)

From stdpp Require Import prelude gmap.

Local Open Scope Z_scope.

Section Flashheap.

(** [sizeof (flashheap_packet_t)], in bytes. *)
Variable hbytes : nat.

Definition hsz : Z := Z.of_nat hbytes.

(** Number of values of the header type, and the first value that no longer
    fits the signed type. *)
Definition modulus : Z := 256 ^ hsz.
Definition half : Z := modulus / 2.

(** Two's complement wrap-around to [8 * hbytes] bits. *)
Definition wrap (x : Z) : Z := (x + half) mod modulus - half.

(** [abs] from stdlib.h, at the width of the header. *)
Definition wabs (x : Z) : Z := wrap (Z.abs x).

(** ** Bytes of a header: little endian, as on the AVR and ARM targets. *)

Fixpoint encode (n : nat) (v : Z) : list Z :=
  match n with
  | O => []
  | S n' => v mod 256 :: encode n' (v / 256)
  end.

Fixpoint decode (bs : list Z) : Z :=
  match bs with
  | [] => 0
  | b :: bs' => b + 256 * decode bs'
  end.

(** ** The storage device *)

Inductive event : Type :=
| EvRead (addr : Z) (ok : bool)
| EvWrite (addr : Z) (data : list Z) (ok : bool).

Record flash : Type := Flash {
  cells : gmap Z Z;      (* byte stored at each address; erased cells read 255 *)
  sched : list bool;     (* fault schedule: [true] makes the next transfer fault *)
  trace : list event     (* transfers asked for so far, oldest first *)
}.

Fixpoint load (m : gmap Z Z) (a : Z) (n : nat) : list Z :=
  match n with
  | O => []
  | S n' => default 255 (m !! a) :: load m (a + 1) n'
  end.

Fixpoint store (m : gmap Z Z) (a : Z) (bs : list Z) : gmap Z Z :=
  match bs with
  | [] => m
  | b :: bs' => store (<[a := b]> m) (a + 1) bs'
  end.

Definition next_fault (d : flash) : bool := hd false (sched d).

(** The device after a transfer that left the cells [m]. *)
Definition moved (d : flash) (m : gmap Z Z) (ev : event) : flash :=
  Flash m (tl (sched d)) (trace d ++ [ev]).

(** [heap->read (heap->dev, addr, buffer, len)]: bytes transferred, buffer,
    device afterwards. *)
Definition dev_read (d : flash) (addr : Z) (len : nat) : Z * list Z * flash :=
  if next_fault d
  then (0, [], moved d (cells d) (EvRead addr false))
  else (Z.of_nat len, load (cells d) addr len,
        moved d (cells d) (EvRead addr true)).

(** [heap->write (heap->dev, addr, buffer, len)]: bytes transferred, device
    afterwards. *)
Definition dev_write (d : flash) (addr : Z) (bs : list Z) : Z * flash :=
  if next_fault d
  then (0, moved d (cells d) (EvWrite addr bs false))
  else (Z.of_nat (length bs),
        moved d (store (cells d) addr bs) (EvWrite addr bs true)).

(** ** The heap *)

Record flashheap : Type := Heap {
  heap_dev : flash;
  heap_offset : Z;
  heap_size : Z;
  heap_last : Z
}.

Definition with_dev (h : flashheap) (d : flash) : flashheap :=
  Heap d (heap_offset h) (heap_size h) (heap_last h).

(** [heap->offset + heap->size], the bound of every scan. *)
Definition heap_end (h : flashheap) : Z := wrap (heap_offset h + heap_size h).

(** [flashheap_packet_read]: [Some] of the header when the device moved
    [sizeof (packet)] bytes. *)
Definition flashheap_packet_read (d : flash) (addr : Z) : option Z * flash :=
  let '(n, buf, d') := dev_read d addr hbytes in
  if n =? hsz then (Some (wrap (decode buf)), d') else (None, d').

(** Writing a header: [heap->write (heap->dev, addr, &packet, sizeof (packet))
    != sizeof (packet)] is the negation of the boolean returned here. *)
Definition packet_write (d : flash) (addr : Z) (p : Z) : bool * flash :=
  let '(n, d') := dev_write d addr (encode hbytes p) in
  (n =? hsz, d').

(** The step of every scan: [addr += abs (packet.size) + sizeof (packet)]. *)
Definition skip (addr p : Z) : Z := wrap (addr + (wabs p + hsz)).

(** ** flashheap_free *)

(** How the search loop of [flashheap_free] ends: on a read fault, or with
    its locals.  [packet] is [None] as long as the loop body has not run
    (the C variable is not initialised). *)
Inductive search : Type :=
| SearchFault (d : flash)
| SearchExit (d : flash) (addr : Z) (packet : option Z)
             (prev_addr prev_size : Z).

Fixpoint free_search (fuel : nat) (lim desired : Z) (d : flash) (addr : Z)
    (packet : option Z) (prev_addr prev_size : Z) : option search :=
  if addr <? lim then
    match fuel with
    | O => None
    | S fuel' =>
        match flashheap_packet_read d addr with
        | (None, d') => Some (SearchFault d')
        | (Some p, d') =>
            if addr =? desired
            then Some (SearchExit d' addr (Some p) prev_addr prev_size)
            else free_search fuel' lim desired d' (skip addr p) (Some p) addr p
        end
    end
  else Some (SearchExit d addr packet prev_addr prev_size).

(** The coalescing step: address and header that [flashheap_free] writes,
    from the negated header [p], the neighbours' headers and the two
    candidate addresses. *)
Definition coalesce (addr p prev_addr prev_size next_size : Z) : Z * Z :=
  if (prev_size <? 0) && (next_size <? 0)
  then (prev_addr, wrap (p + (prev_size + next_size - 2 * hsz)))
  else if next_size <? 0
  then (addr, wrap (p + (next_size - hsz)))
  else if prev_size <? 0
  then (prev_addr, wrap (p + (prev_size - hsz)))
  else (addr, p).

(** [None]: the fuel ran out, or the C code would read the uninitialised
    [packet]. *)
Definition flashheap_free (fuel : nat) (h : flashheap) (ptr : Z)
    : option (bool * flashheap) :=
  match free_search fuel (heap_end h) ptr (heap_dev h) (heap_offset h) None 0 0 with
  | None => None
  | Some (SearchFault d) => Some (false, with_dev h d)
  | Some (SearchExit d addr packet prev_addr prev_size) =>
      if negb (addr =? ptr) then Some (false, with_dev h d)
      else
        match packet with
        | None => None
        | Some p0 =>
            if p0 <? 0 then Some (false, with_dev h d)
            else
              let p := wrap (- p0) in
              let next_addr := skip addr p in
              match flashheap_packet_read d next_addr with
              | (None, d') => Some (false, with_dev h d')
              | (Some next_size, d') =>
                  let '(addr', p') :=
                    coalesce addr p prev_addr prev_size next_size in
                  let '(ok, d'') := packet_write d' addr' p' in
                  Some (ok, with_dev h d'')
              end
        end
  end.

(** ** flashheap_alloc *)

(** The body of the [if] that takes a free packet with header [p] at
    [addr]: split when the sizes differ, then mark allocated. *)
Definition alloc_take (h : flashheap) (d : flash) (addr p size : Z)
    : Z * flashheap :=
  let split :=
    if negb (size =? wrap (- p))
    then packet_write d (wrap (addr + hsz + size))
                      (wrap (- (wrap (- p) - size - hsz)))
    else (true, d) in
  let '(ok1, d1) := split in
  if negb ok1 then (0, with_dev h d1)
  else
    let '(ok2, d2) := packet_write d1 addr size in
    if negb ok2 then (0, with_dev h d2)
    else (addr, Heap d2 (heap_offset h) (heap_size h) addr).

Fixpoint alloc_loop (fuel : nat) (h : flashheap) (d : flash) (size addr : Z)
    : option (Z * flashheap) :=
  if addr <? heap_end h then
    match fuel with
    | O => None
    | S fuel' =>
        match flashheap_packet_read d addr with
        | (None, d') => Some (0, with_dev h d')
        | (Some p, d') =>
            if (p <? 0) && (size <=? wrap (- p))
            then Some (alloc_take h d' addr p size)
            else alloc_loop fuel' h d' size (skip addr p)
        end
    end
  else Some (0, with_dev h d).

(** Returns the address, 0 for none. *)
Definition flashheap_alloc (fuel : nat) (h : flashheap) (size : Z)
    : option (Z * flashheap) :=
  alloc_loop fuel h (heap_dev h) size (heap_offset h).

(** ** flashheap_walk and its clients *)

(** A callback gets the address, the header and its argument, and returns
    whether to stop together with the argument as it leaves it. *)
Definition flashheap_callback_t (A : Type) : Type := Z -> Z -> A -> bool * A.

Fixpoint flashheap_walk {A : Type} (fuel : nat) (lim : Z) (d : flash) (addr : Z)
    (callback : flashheap_callback_t A) (arg : A) : option (bool * A * flash) :=
  if addr <? lim then
    match fuel with
    | O => None
    | S fuel' =>
        match flashheap_packet_read d addr with
        | (None, d') => Some (false, arg, d')
        | (Some p, d') =>
            let '(stop, arg') := callback addr p arg in
            if stop then Some (true, arg', d')
            else flashheap_walk fuel' lim d' (skip addr p) callback arg'
        end
    end
  else Some (false, arg, d).

Definition flashheap_alloc_p : flashheap_callback_t Z :=
  fun addr p _ => (0 <=? p, addr).

(** The local [addr] is only read after the callback has set it; it starts
    as 0 here. *)
Definition flashheap_alloc_first (fuel : nat) (h : flashheap)
    : option (Z * flashheap) :=
  match flashheap_walk fuel (heap_end h) (heap_dev h) (heap_offset h)
                       flashheap_alloc_p 0 with
  | None => None
  | Some (true, addr, d) => Some (addr, with_dev h d)
  | Some (false, _, d) => Some (0, with_dev h d)
  end.

Definition flashheap_alloc_next (fuel : nat) (h : flashheap) (ptr : Z)
    : option (Z * flashheap) :=
  if ptr =? 0 then flashheap_alloc_first fuel h
  else
    match flashheap_packet_read (heap_dev h) ptr with
    | (None, d) => Some (0, with_dev h d)
    | (Some p, d) =>
        let addr := wrap (ptr + wabs p) in
        match flashheap_walk fuel (heap_end h) d addr flashheap_alloc_p addr with
        | None => None
        | Some (true, addr', d') => Some (addr', with_dev h d')
        | Some (false, _, d') => Some (0, with_dev h d')
        end
    end.

Definition flashheap_alloc_size (h : flashheap) (ptr : Z) : Z * flashheap :=
  match flashheap_packet_read (heap_dev h) ptr with
  | (None, d) => (0, with_dev h d)
  | (Some p, d) => (if p <? 0 then 0 else p, with_dev h d)
  end.

Record flashheap_stats_t : Type := Stats {
  alloc_packets : Z;
  free_packets : Z;
  alloc_bytes : Z;
  free_bytes : Z
}.

Definition flashheap_stats_helper : flashheap_callback_t flashheap_stats_t :=
  fun _ p s =>
    if 0 <=? p
    then (false, Stats (alloc_packets s + 1) (free_packets s)
                       (alloc_bytes s + p) (free_bytes s))
    else (false, Stats (alloc_packets s) (free_packets s + 1)
                       (alloc_bytes s) (free_bytes s - p)).

Definition flashheap_stats (fuel : nat) (h : flashheap)
    : option (flashheap_stats_t * flashheap) :=
  match flashheap_walk fuel (heap_end h) (heap_dev h) (heap_offset h)
                       flashheap_stats_helper (Stats 0 0 0 0) with
  | None => None
  | Some (_, s, d) => Some (s, with_dev h d)
  end.

(** ** Lifecycle *)

Definition flashheap_erase (h : flashheap) : bool * flashheap :=
  let '(ok, d) := packet_write (heap_dev h) (heap_offset h)
                               (wrap (- (heap_size h - hsz))) in
  (ok, with_dev h d).

(** [heap_data] is the one static instance; [flashheap_init] leaves its
    [last] field as it is. *)
Definition flashheap_init (heap_data : flashheap) (offset size : Z) (d : flash)
    : flashheap :=
  Heap d offset size (heap_last heap_data).

(** ** Sequences of operations *)

Inductive op : Type :=
| OpErase
| OpAlloc (size : Z)
| OpFree (ptr : Z).

(** One operation and the value it returns: the address for
    [flashheap_alloc], 1 or 0 for the two boolean functions. *)
Definition run_op (fuel : nat) (h : flashheap) (o : op)
    : option (Z * flashheap) :=
  match o with
  | OpErase => let '(ok, h') := flashheap_erase h in Some (Z.b2z ok, h')
  | OpAlloc size => flashheap_alloc fuel h size
  | OpFree ptr =>
      match flashheap_free fuel h ptr with
      | Some (ok, h') => Some (Z.b2z ok, h')
      | None => None
      end
  end.

Fixpoint run (fuel : nat) (h : flashheap) (ops : list op)
    : option (list Z * flashheap) :=
  match ops with
  | [] => Some ([], h)
  | o :: ops' =>
      match run_op fuel h o with
      | None => None
      | Some (r, h') =>
          match run fuel h' ops' with
          | None => None
          | Some (rs, h'') => Some (r :: rs, h'')
          end
      end
  end.

(** The heap after a sequence of operations (the heap itself when the fuel
    does not suffice). *)
Definition heap_after (fuel : nat) (h : flashheap) (ops : list op) : flashheap :=
  match run fuel h ops with
  | Some (_, h') => h'
  | None => h
  end.

(** The walk with a callback that never stops and lists what it is shown. *)
Definition flashheap_list (fuel : nat) (h : flashheap)
    : option (list (Z * Z)) :=
  match flashheap_walk fuel (heap_end h) (heap_dev h) (heap_offset h)
                       (fun a p acc => (false, acc ++ [(a, p)])) [] with
  | Some (_, l, _) => Some l
  | None => None
  end.

(** ** Example heaps

    The heap of the scenario of the specification: a region of 100 bytes at
    address 1000, on an erased device that never faults. *)
Definition scenario_heap : flashheap := Heap (Flash ∅ [] []) 1000 100 0.

(** The same region on a device whose seventh transfer faults. *)
Definition faulty_heap : flashheap :=
  Heap (Flash ∅ [false; false; false; false; false; false; true] []) 1000 100 0.

(** The region of the scenario followed on the device by other data: the
    two bytes right after the region hold the value -4. *)
Definition neighbour_heap : flashheap :=
  Heap (Flash (store ∅ 1100 [252; 255]) [] []) 1000 100 0.

(** The user of the heap writes bytes through the device, into a payload. *)
Definition poke (h : flashheap) (a : Z) (bs : list Z) : flashheap :=
  with_dev h (Flash (store (cells (heap_dev h)) a bs)
                    (sched (heap_dev h)) (trace (heap_dev h))).

(** A region of 86 bytes at 1000 laid out by hand: a free packet of 50
    bytes, an allocated packet of 10 bytes, a free packet of 20 bytes. *)
Definition fragmented_heap : flashheap :=
  Heap (Flash (store (store (store ∅ 1000 (encode 2 (-50)))
                            1052 (encode 2 10))
                     1064 (encode 2 (-20)))
              [] [])
       1000 86 0.

(** ** The heap as a sequence of packets

    These definitions are the vocabulary of the statements below; none of
    them is used by the code above. *)

(** The header stored at an address. *)
Definition header_at (m : gmap Z Z) (a : Z) : Z :=
  wrap (decode (load m a hbytes)).

(** Address of the packet that follows the packet with header [p] at [a]. *)
Definition after (a p : Z) : Z := a + hsz + Z.abs p.

(** The packets with headers [ps] lie one after the other from [a] on, each
    starts below [lim], and no address on the way leaves the address type. *)
Fixpoint chain (m : gmap Z Z) (lim a : Z) (ps : list Z) : Prop :=
  match ps with
  | [] => True
  | p :: ps' =>
      a < lim /\ header_at m a = p /\ after a p < half /\
      chain m lim (after a p) ps'
  end.

(** Where the walk over [ps] from [a] arrives. *)
Fixpoint chain_end (a : Z) (ps : list Z) : Z :=
  match ps with
  | [] => a
  | p :: ps' => chain_end (after a p) ps'
  end.

(** The addresses of the packets [ps] laid out from [a]. *)
Fixpoint chain_addrs (a : Z) (ps : list Z) : list Z :=
  match ps with
  | [] => []
  | p :: ps' => a :: chain_addrs (after a p) ps'
  end.

(** The region of the heap lies in the positive half of the address type:
    [offset] is not the null address, [size] is not negative and
    [offset + size] does not wrap. *)
Definition geometry (h : flashheap) : Prop :=
  0 < heap_offset h /\ 0 <= heap_size h /\ heap_offset h + heap_size h < half.

(** The packets [ps] tile the region of [h] exactly. *)
Definition tiled (h : flashheap) (ps : list Z) : Prop :=
  chain (cells (heap_dev h)) (heap_offset h + heap_size h) (heap_offset h) ps /\
  chain_end (heap_offset h) ps = heap_offset h + heap_size h.

(** The next [n] transfers of the device do not fault. *)
Definition calm (n : nat) (d : flash) : Prop :=
  forall k : nat, (k < n)%nat -> nth k (sched d) false = false.

(** No transfer of the device faults any more. *)
Definition quiet (d : flash) : Prop := forall n : nat, calm n d.

(** The device after successful reads at the addresses [addrs]. *)
Fixpoint reads (d : flash) (addrs : list Z) : flash :=
  match addrs with
  | [] => d
  | a :: addrs' => reads (moved d (cells d) (EvRead a true)) addrs'
  end.

(** The locals [packet], [prev_addr] and [prev_packet.size] of
    [flashheap_free] after its loop has passed the packets [ps] from [a]. *)
Fixpoint search_locals (a : Z) (ps : list Z) (loc : option Z * Z * Z)
    : option Z * Z * Z :=
  match ps with
  | [] => loc
  | p :: ps' => search_locals (after a p) ps' (Some p, a, p)
  end.

(** Address and header of the left neighbour of the packet that follows
    [ps]; (0, 0), the initial values of the locals, when there is none. *)
Definition prev_of (a : Z) (ps : list Z) : Z * Z :=
  let '(_, pa, psz) := search_locals a ps (None, 0, 0) in (pa, psz).

(** A request [size] is met by a packet with header [p]: the packet is free
    and its payload has room for [size] bytes. *)
Definition fits (size p : Z) : Prop := p < 0 /\ size <= Z.abs p.

(** The packets that replace a packet [c], its left neighbour [p] and its
    right neighbour [n] when [c] is freed: the four cases of the
    specification. *)
Definition freed (p c n : Z) : list Z :=
  if (p <? 0) && (n <? 0) then [- (Z.abs p + c + Z.abs n + 2 * hsz)]
  else if n <? 0 then [p; - (c + Z.abs n + hsz)]
  else if p <? 0 then [- (Z.abs p + c + hsz); n]
  else [p; - c; n].

(** No free packet is directly followed by a free packet. *)
Fixpoint no_adjacent_free (ps : list Z) : Prop :=
  match ps with
  | p :: (q :: _) as ps' => ~ (p < 0 /\ q < 0) /\ no_adjacent_free ps'
  | _ => True
  end.

Definition is_read (ev : event) : Prop :=
  match ev with
  | EvRead _ _ => True
  | EvWrite _ _ _ => False
  end.

(** The device after [flashheap_alloc] has taken the free packet with
    header [c] at [a] for a request of [size] bytes, all writes succeeding:
    one write when the packet is used whole, the write of the header of the
    remainder and then the write of the allocated header otherwise. *)
Definition taken (d : flash) (a c size : Z) : flash :=
  if size =? wrap (- c)
  then moved d (store (cells d) a (encode hbytes size))
               (EvWrite a (encode hbytes size) true)
  else
    let na := wrap (a + hsz + size) in
    let np := wrap (- (wrap (- c) - size - hsz)) in
    let d1 := moved d (store (cells d) na (encode hbytes np))
                    (EvWrite na (encode hbytes np) true) in
    moved d1 (store (cells d1) a (encode hbytes size))
          (EvWrite a (encode hbytes size) true).

(** The device as the search loop of [flashheap_free] leaves it. *)
Definition search_dev (s : search) : flash :=
  match s with
  | SearchFault d => d
  | SearchExit d _ _ _ _ => d
  end.

(** ** Further vocabulary: statistics, fault positions *)

Definition total (l : list Z) : Z := foldr Z.add 0 l.

(** The statistics of a sequence of packets, read off their headers: how
    many are allocated and how many free, and the payload bytes of each
    kind. *)
Definition stats_of (ps : list Z) : flashheap_stats_t :=
  Stats (Z.of_nat (length (filter (fun p => 0 <= p) ps)))
        (Z.of_nat (length (filter (fun p => p < 0) ps)))
        (total (filter (fun p => 0 <= p) ps))
        (total (map Z.abs (filter (fun p => p < 0) ps))).

(** What [flashheap_stats_helper] makes of the statistics [s] on a packet
    with header [p]. *)
Definition stats_step (s : flashheap_stats_t) (p : Z) : flashheap_stats_t :=
  snd (flashheap_stats_helper 0 p s).

(** Whether the transfer after the next [k] ones faults. *)
Definition fault_at (k : nat) (d : flash) : bool := nth k (sched d) false.

(** The events of a trace that are writes. *)
Definition is_write (ev : event) : Prop :=
  match ev with
  | EvRead _ _ => False
  | EvWrite _ _ _ => True
  end.

(** The heap [h'] is the heap [h] after transfers that were all reads:
    same cells, same fields. *)
Definition only_read (h h' : flashheap) : Prop :=
  cells (heap_dev h') = cells (heap_dev h) /\
  heap_offset h' = heap_offset h /\ heap_size h' = heap_size h /\
  heap_last h' = heap_last h /\
  exists rs : list event,
    Forall is_read rs /\ trace (heap_dev h') = trace (heap_dev h) ++ rs.

(** The heap with another value in its field [last]. *)
Definition with_last (h : flashheap) (x : Z) : flashheap :=
  Heap (heap_dev h) (heap_offset h) (heap_size h) x.

(** What a caller and the device see of a call: the value returned and the
    device afterwards. *)
Definition outcome {R : Type} (r : option (R * flashheap))
    : option (R * flash) :=
  option_map (fun rh => (fst rh, heap_dev (snd rh))) r.

(** ** ram_msd.c: a RAM device with the same read and write interface

    [mem] is the array [static uint8_t mem[RAM_MSD_BYTES]], a list of
    [RAM_MSD_BYTES] bytes.  [amod] is the number of values of the unsigned
    type in which [addr + size] is evaluated ([msd_addr_t] and
    [msd_size_t] are fixed by [msd.h]).  The result is [None] when
    [memcpy] would leave the array, which the test lets through only if
    the sum has wrapped. *)

(** Bytes transferred and the bytes put into the buffer. *)
Definition ram_msd_read (amod : Z) (mem : list Z) (addr size : Z)
    : option (Z * list Z) :=
  if (addr + size) mod amod >? Z.of_nat (length mem) then Some (0, [])
  else if addr + size <=? Z.of_nat (length mem)
  then Some (size, take (Z.to_nat size) (drop (Z.to_nat addr) mem))
  else None.

(** Bytes transferred and the array afterwards; [size] is the length of
    the buffer. *)
Definition ram_msd_write (amod : Z) (mem : list Z) (addr : Z)
    (buffer : list Z) : option (Z * list Z) :=
  let size := Z.of_nat (length buffer) in
  if (addr + size) mod amod >? Z.of_nat (length mem) then Some (0, mem)
  else if addr + size <=? Z.of_nat (length mem)
  then Some (size,
             take (Z.to_nat addr) mem ++ buffer
               ++ drop (Z.to_nat (addr + size)) mem)
  else None.

(** ** Wrap-around and the bytes of a header *)

Hypothesis hbytes_pos : (0 < hbytes)%nat.

Lemma hsz_pos : 0 < hsz.
Proof. unfold hsz. lia. Qed.

Lemma modulus_half : modulus = 2 * half.
Proof.
  unfold half, modulus.
  replace hsz with (1 + (hsz - 1)) by lia.
  rewrite Z.pow_add_r by (pose proof hsz_pos; lia).
  change (256 ^ 1) with (2 * 128).
  rewrite <- Z.mul_assoc, (Z.mul_comm 2), Z.div_mul by lia. lia.
Qed.

Lemma half_pos : 0 < half.
Proof.
  pose proof modulus_half as E.
  assert (0 < modulus) by (apply Z.pow_pos_nonneg; pose proof hsz_pos; lia).
  lia.
Qed.

Lemma wrap_id (x : Z) : - half <= x < half -> wrap x = x.
Proof.
  intros Hx. unfold wrap. rewrite modulus_half.
  rewrite Z.mod_small by lia. lia.
Qed.

Lemma wrap_range (x : Z) : - half <= wrap x < half.
Proof.
  unfold wrap. rewrite modulus_half.
  pose proof (Z.mod_pos_bound (x + half) (2 * half)) as B.
  pose proof half_pos. lia.
Qed.

Lemma wrap_mod (x : Z) : wrap (x mod modulus) = wrap x.
Proof.
  unfold wrap. rewrite Z.add_mod_idemp_l; [done|].
  pose proof modulus_half; pose proof half_pos; lia.
Qed.

Lemma encode_length (n : nat) (v : Z) : length (encode n v) = n.
Proof. revert v; induction n; intros; simpl; auto. Qed.

Lemma decode_encode (n : nat) (v : Z) :
  decode (encode n v) = v mod 256 ^ Z.of_nat n.
Proof.
  revert v; induction n as [|n IH]; intros v.
  - simpl. now rewrite Z.mod_1_r.
  - cbn [encode decode]. rewrite IH.
    replace (Z.of_nat (S n)) with (1 + Z.of_nat n) by lia.
    rewrite Z.pow_add_r by lia. change (256 ^ 1) with 256.
    rewrite Z.rem_mul_r; [lia | lia |].
    apply Z.pow_pos_nonneg; lia.
Qed.

Lemma store_lookup_outside (bs : list Z) (m : gmap Z Z) (a b : Z) :
  b < a \/ a + Z.of_nat (length bs) <= b -> store m a bs !! b = m !! b.
Proof.
  revert m a; induction bs as [|x bs IH]; intros m a Hb; simpl; [done|].
  rewrite IH by (simpl in Hb; lia).
  apply lookup_insert_ne. simpl in Hb. lia.
Qed.

Lemma load_store_same (bs : list Z) (m : gmap Z Z) (a : Z) :
  load (store m a bs) a (length bs) = bs.
Proof.
  revert m a; induction bs as [|x bs IH]; intros m a; simpl; [done|].
  rewrite IH, store_lookup_outside by lia.
  now rewrite lookup_insert_eq.
Qed.

Lemma load_same_cells (n : nat) (m m' : gmap Z Z) (b : Z) :
  (forall c, b <= c < b + Z.of_nat n -> m' !! c = m !! c) ->
  load m' b n = load m b n.
Proof.
  revert b; induction n as [|n IH]; intros b Hc; simpl; [done|].
  rewrite Hc by lia. f_equal. apply IH. intros c Hr. apply Hc. lia.
Qed.

Lemma header_at_store_same (m : gmap Z Z) (a v : Z) :
  header_at (store m a (encode hbytes v)) a = wrap v.
Proof.
  unfold header_at.
  rewrite <- (encode_length hbytes v) at 2.
  rewrite load_store_same, decode_encode. apply wrap_mod.
Qed.

Lemma header_at_store_other (m : gmap Z Z) (a b v : Z) :
  b + hsz <= a \/ a + hsz <= b ->
  header_at (store m a (encode hbytes v)) b = header_at m b.
Proof.
  intros Hd. unfold header_at. f_equal. f_equal.
  apply load_same_cells. intros c Hc.
  apply store_lookup_outside. rewrite encode_length. unfold hsz in Hd. lia.
Qed.

(** ** One transfer of a header *)

Lemma packet_read_cases (d : flash) (a : Z) :
  (next_fault d = true /\
   flashheap_packet_read d a = (None, moved d (cells d) (EvRead a false))) \/
  (next_fault d = false /\
   flashheap_packet_read d a =
     (Some (header_at (cells d) a), moved d (cells d) (EvRead a true))).
Proof.
  unfold flashheap_packet_read, dev_read.
  destruct (next_fault d); [left | right]; split; try done.
  - destruct (Z.eqb_spec 0 hsz) as [E|_]; [|done].
    pose proof hsz_pos; lia.
  - fold hsz. now rewrite Z.eqb_refl.
Qed.

Lemma packet_write_cases (d : flash) (a p : Z) :
  (next_fault d = true /\
   packet_write d a p =
     (false, moved d (cells d) (EvWrite a (encode hbytes p) false))) \/
  (next_fault d = false /\
   packet_write d a p =
     (true, moved d (store (cells d) a (encode hbytes p))
                  (EvWrite a (encode hbytes p) true))).
Proof.
  unfold packet_write, dev_write.
  destruct (next_fault d); [left | right]; split; try done.
  - destruct (Z.eqb_spec 0 hsz) as [E|_]; [|done].
    pose proof hsz_pos; lia.
  - rewrite encode_length. fold hsz. now rewrite Z.eqb_refl.
Qed.

(** A header read changes neither the cells nor anything but the end of
    the trace, where it adds one read. *)
Lemma packet_read_effect (d d' : flash) (a : Z) (r : option Z) :
  flashheap_packet_read d a = (r, d') ->
  cells d' = cells d /\ exists ok, trace d' = trace d ++ [EvRead a ok].
Proof.
  intros E. destruct (packet_read_cases d a) as [[_ E']|[_ E']];
    rewrite E' in E; inversion E; subst; simpl; eauto.
Qed.

(** ** The search loop of flashheap_free only reads *)

Lemma free_search_reads (fuel : nat) (lim desired : Z) :
  forall (d : flash) (addr : Z) (packet : option Z) (pa ps : Z) (s : search),
    free_search fuel lim desired d addr packet pa ps = Some s ->
    cells (search_dev s) = cells d /\
    exists rs, Forall is_read rs /\ trace (search_dev s) = trace d ++ rs.
Proof.
  induction fuel as [|fuel IH]; intros d addr packet pa ps s; simpl.
  - destruct (addr <? lim); [done|]. intros [= <-]; simpl.
    split; [done|]. exists []. now rewrite app_nil_r.
  - destruct (addr <? lim).
    + destruct (flashheap_packet_read d addr) as [[p|] d'] eqn:R;
        apply packet_read_effect in R as [Hc [ok Ht]].
      * destruct (addr =? desired).
        -- intros [= <-]; simpl. split; [done|].
           exists [EvRead addr ok]. split; [|done]. repeat constructor.
        -- intros E. apply IH in E as [Hc' [rs [Hrs Ht']]].
           split; [congruence|].
           exists (EvRead addr ok :: rs). split; [now constructor|].
           rewrite Ht', Ht, <- app_assoc. done.
      * intros [= <-]; simpl. split; [done|].
        exists [EvRead addr ok]. split; [|done]. repeat constructor.
    + intros [= <-]; simpl. split; [done|]. exists []. now rewrite app_nil_r.
Qed.

(** C9 - [flashheap_free] is failure-atomic.  Whenever it returns, the
    transfers it asked for are a run of reads followed by at most one
    write, the write of the coalesced header, which is the last thing it
    does.  It returns the outcome of that write; in every failing outcome
    (address not found, packet already free, a read fault, the write
    faulting) the cells of the device are what they were before the call,
    so a header that is negated but not yet coalesced is never stored. *)
Theorem free_failure_atomic (fuel : nat) (h : flashheap) (ptr : Z)
    (r : bool) (h' : flashheap) :
  flashheap_free fuel h ptr = Some (r, h') ->
  exists rs : list event,
    Forall is_read rs /\
    ((r = false /\
      trace (heap_dev h') = trace (heap_dev h) ++ rs /\
      cells (heap_dev h') = cells (heap_dev h)) \/
     (exists addr p0 pa ps nx ok,
        0 <= p0 /\
        let '(a, p) := coalesce addr (wrap (- p0)) pa ps nx in
        trace (heap_dev h') =
          trace (heap_dev h) ++ rs ++ [EvWrite a (encode hbytes p) ok] /\
        r = ok /\
        cells (heap_dev h') =
          if ok then store (cells (heap_dev h)) a (encode hbytes p)
          else cells (heap_dev h))).
Proof.
  unfold flashheap_free.
  destruct (free_search _ _ _ _ _ _ _ _) as [s|] eqn:S; [|done].
  apply free_search_reads in S as [Hc [rs [Hrs Ht]]].
  destruct s as [d|d addr packet pa ps]; simpl in Hc, Ht.
  { intros [= <- <-]. exists rs. split; [done|]. left. done. }
  destruct (negb (addr =? ptr)).
  { intros [= <- <-]. exists rs. split; [done|]. left. done. }
  destruct packet as [p0|]; [|done].
  destruct (Z.ltb_spec p0 0) as [Hneg|Hpos].
  { intros [= <- <-]. exists rs. split; [done|]. left. done. }
  destruct (packet_read_cases d (skip addr (wrap (- p0)))) as [[_ R]|[_ R]];
    rewrite R.
  { intros [= <- <-]. exists (rs ++ [EvRead (skip addr (wrap (- p0))) false]).
    split; [apply Forall_app; split; [done | repeat constructor]|].
    left. simpl. rewrite Ht, Hc, <- app_assoc. done. }
  set (nx := header_at (cells d) (skip addr (wrap (- p0)))).
  set (d1 := moved d (cells d) (EvRead (skip addr (wrap (- p0))) true)).
  destruct (coalesce addr (wrap (- p0)) pa ps nx) as [a p] eqn:C.
  intros H. exists (rs ++ [EvRead (skip addr (wrap (- p0))) true]).
  split; [apply Forall_app; split; [done | repeat constructor]|].
  right. exists addr, p0, pa, ps, nx.
  destruct (packet_write_cases d1 a p) as [[_ W]|[_ W]];
    rewrite W in H; injection H as <- <-.
  - exists false. split; [done|]. rewrite C. simpl.
    rewrite Ht, Hc, <- !app_assoc. done.
  - exists true. split; [done|]. rewrite C. simpl.
    rewrite Ht, Hc, <- !app_assoc. done.
Qed.

(** ** What a successful flashheap_alloc leaves at the address it returns *)

Lemma alloc_take_success (h : flashheap) (d : flash) (addr p size r : Z)
    (h' : flashheap) :
  alloc_take h d addr p size = (r, h') -> r <> 0 ->
  r = addr /\ heap_last h' = addr /\
  header_at (cells (heap_dev h')) addr = wrap size.
Proof.
  unfold alloc_take. intros E Hr.
  destruct (if negb (size =? wrap (- p))
            then packet_write d (wrap (addr + hsz + size))
                   (wrap (- (wrap (- p) - size - hsz)))
            else (true, d)) as [ok1 d1].
  destruct ok1; simpl in E; [|now inversion E; subst].
  destruct (packet_write_cases d1 addr size) as [[_ W]|[_ W]];
    rewrite W in E; simpl in E; inversion E; subst; [done|].
  simpl. now rewrite header_at_store_same.
Qed.

Lemma alloc_loop_success (fuel : nat) (h : flashheap) (size : Z) :
  forall (d : flash) (addr r : Z) (h' : flashheap),
    alloc_loop fuel h d size addr = Some (r, h') -> r <> 0 ->
    heap_last h' = r /\ header_at (cells (heap_dev h')) r = wrap size.
Proof.
  induction fuel as [|fuel IH]; intros d addr r h'; simpl.
  - destruct (addr <? heap_end h); [done|]. now intros [= <- <-].
  - destruct (addr <? heap_end h); [|now intros [= <- <-]].
    destruct (flashheap_packet_read d addr) as [[p|] d']; [|now intros [= <- <-]].
    destruct ((p <? 0) && (size <=? wrap (- p))).
    + intros [= E] Hr. apply alloc_take_success in E as (-> & ? & ?); done.
    + apply IH.
Qed.

(** C8 - Exact-size allocation.  When [flashheap_alloc] succeeds for a
    size that the size type can hold and that is not negative, the header
    at the address it returns holds that size, so [flashheap_alloc_size],
    run on the heap as [flashheap_alloc] left it, returns exactly that size
    (unless its read faults).  In general [flashheap_alloc_size] returns the
    header at the address when the read succeeds and the header is not
    negative, and 0 when the header is negative or the read faults. *)
Theorem alloc_size_exact (fuel : nat) (h : flashheap) (size a : Z)
    (h' : flashheap) :
  0 <= size < half ->
  flashheap_alloc fuel h size = Some (a, h') -> a <> 0 ->
  (next_fault (heap_dev h') = false ->
   fst (flashheap_alloc_size h' a) = size) /\
  (forall (g : flashheap) (ptr : Z),
     fst (flashheap_alloc_size g ptr) =
       if next_fault (heap_dev g) then 0
       else if header_at (cells (heap_dev g)) ptr <? 0 then 0
            else header_at (cells (heap_dev g)) ptr).
Proof.
  intros Hs E Ha.
  assert (G : forall (g : flashheap) (ptr : Z),
     fst (flashheap_alloc_size g ptr) =
       if next_fault (heap_dev g) then 0
       else if header_at (cells (heap_dev g)) ptr <? 0 then 0
            else header_at (cells (heap_dev g)) ptr).
  { intros g ptr. unfold flashheap_alloc_size.
    destruct (packet_read_cases (heap_dev g) ptr) as [[F R]|[F R]];
      rewrite R, F; [done|].
    now destruct (header_at (cells (heap_dev g)) ptr <? 0). }
  split; [|exact G].
  intros Hq. rewrite G, Hq.
  apply alloc_loop_success in E as [_ ->]; [|done].
  rewrite wrap_id by lia.
  destruct (Z.ltb_spec size 0); [lia | done].
Qed.

(** ** Fault schedules *)

Lemma calm_next (n : nat) (d : flash) : calm (S n) d -> next_fault d = false.
Proof.
  intros H. specialize (H 0%nat ltac:(lia)).
  unfold next_fault. now destruct (sched d).
Qed.

Lemma calm_moved (n : nat) (d : flash) (m : gmap Z Z) (ev : event) :
  calm (S n) d -> calm n (moved d m ev).
Proof.
  intros H k Hk. specialize (H (S k) ltac:(lia)). simpl.
  destruct (sched d); [now destruct k | done].
Qed.

Lemma calm_le (n n' : nat) (d : flash) : (n' <= n)%nat -> calm n d -> calm n' d.
Proof. intros Hn H k Hk. apply H. lia. Qed.

Lemma calm_reads (addrs : list Z) (n : nat) (d : flash) :
  calm (length addrs + n) d -> calm n (reads d addrs).
Proof.
  revert d; induction addrs as [|a addrs IH]; intros d H; simpl in *; [done|].
  apply IH. now apply calm_moved.
Qed.

Lemma quiet_moved (d : flash) (m : gmap Z Z) (ev : event) :
  quiet d -> quiet (moved d m ev).
Proof. intros H n. apply calm_moved, H. Qed.

Lemma quiet_reads (addrs : list Z) (d : flash) : quiet d -> quiet (reads d addrs).
Proof. intros H n. apply calm_reads, H. Qed.

Lemma cells_reads (addrs : list Z) (d : flash) : cells (reads d addrs) = cells d.
Proof. revert d; induction addrs as [|a addrs IH]; intros d; simpl; [done|]. now rewrite IH. Qed.

Lemma trace_reads (addrs : list Z) (d : flash) :
  trace (reads d addrs) = trace d ++ map (fun a => EvRead a true) addrs.
Proof.
  revert d; induction addrs as [|a addrs IH]; intros d; simpl.
  - now rewrite app_nil_r.
  - rewrite IH. simpl. now rewrite <- app_assoc.
Qed.

Lemma reads_app (xs ys : list Z) (d : flash) :
  reads d (xs ++ ys) = reads (reads d xs) ys.
Proof. revert d; induction xs as [|x xs IH]; intros d; simpl; [done|]. apply IH. Qed.

Lemma packet_read_calm (n : nat) (d : flash) (a : Z) :
  calm (S n) d ->
  flashheap_packet_read d a =
    (Some (header_at (cells d) a), moved d (cells d) (EvRead a true)).
Proof.
  intros H. apply calm_next in H.
  destruct (packet_read_cases d a) as [[F _]|[_ R]]; [congruence | done].
Qed.

Lemma packet_write_calm (n : nat) (d : flash) (a p : Z) :
  calm (S n) d ->
  packet_write d a p =
    (true, moved d (store (cells d) a (encode hbytes p))
                 (EvWrite a (encode hbytes p) true)).
Proof.
  intros H. apply calm_next in H.
  destruct (packet_write_cases d a p) as [[F _]|[_ R]]; [congruence | done].
Qed.

(** ** Chains of packets *)

Lemma after_gt (a p : Z) : a + hsz <= after a p.
Proof. unfold after. lia. Qed.

Lemma chain_end_ge (ps : list Z) (a : Z) : a <= chain_end a ps.
Proof.
  revert a; induction ps as [|p ps IH]; intros a; simpl; [lia|].
  specialize (IH (after a p)). pose proof (after_gt a p). pose proof hsz_pos. lia.
Qed.

Lemma chain_end_app (ps qs : list Z) (a : Z) :
  chain_end a (ps ++ qs) = chain_end (chain_end a ps) qs.
Proof. revert a; induction ps as [|p ps IH]; intros a; simpl; [done|]. apply IH. Qed.

Lemma chain_addrs_app (ps qs : list Z) (a : Z) :
  chain_addrs a (ps ++ qs) = chain_addrs a ps ++ chain_addrs (chain_end a ps) qs.
Proof.
  revert a; induction ps as [|p ps IH]; intros a; simpl; [done|]. now rewrite IH.
Qed.

Lemma chain_addrs_length (ps : list Z) (a : Z) :
  length (chain_addrs a ps) = length ps.
Proof. revert a; induction ps as [|p ps IH]; intros a; simpl; [done|]. now rewrite IH. Qed.

Lemma chain_app (m : gmap Z Z) (lim : Z) (ps qs : list Z) (a : Z) :
  chain m lim a (ps ++ qs) <->
  chain m lim a ps /\ chain m lim (chain_end a ps) qs.
Proof.
  revert a; induction ps as [|p ps IH]; intros a; simpl; [tauto|].
  rewrite IH. tauto.
Qed.

(** Every packet of a chain starts before the end of the chain. *)
Lemma chain_addrs_lt (ps : list Z) (a b : Z) :
  In b (chain_addrs a ps) -> a <= b /\ b + hsz <= chain_end a ps.
Proof.
  revert a; induction ps as [|p ps IH]; intros a; simpl; [done|].
  intros [<-|Hb].
  - pose proof (chain_end_ge ps (after a p)). pose proof (after_gt a p). lia.
  - apply IH in Hb. pose proof (after_gt a p). pose proof hsz_pos. lia.
Qed.

(** A chain only depends on the headers at the addresses of its packets. *)
Lemma chain_same_headers (m m' : gmap Z Z) (lim : Z) (ps : list Z) (a : Z) :
  (forall b, In b (chain_addrs a ps) -> header_at m' b = header_at m b) ->
  chain m lim a ps -> chain m' lim a ps.
Proof.
  revert a; induction ps as [|p ps IH]; intros a Hh; simpl; [done|].
  intros (Hlt & Hp & Hr & Hc). repeat split; try done.
  - rewrite Hh; [done | now left].
  - apply IH; [|done]. intros b Hb. apply Hh. now right.
Qed.

(** Writing a header at or after the end of a chain, or [hsz] bytes or more
    before its start, leaves the chain as it is. *)
Lemma chain_store (m : gmap Z Z) (lim : Z) (ps : list Z) (a x v : Z) :
  chain_end a ps <= x \/ x + hsz <= a ->
  chain m lim a ps -> chain (store m x (encode hbytes v)) lim a ps.
Proof.
  intros Hx. apply chain_same_headers. intros b Hb.
  apply chain_addrs_lt in Hb. apply header_at_store_other. lia.
Qed.

(** Along a chain that starts at a non-negative address the step of the
    code is the exact step: nothing wraps. *)
Lemma chain_step (a p : Z) :
  0 <= a -> after a p < half ->
  - half < p < half /\ wabs p = Z.abs p /\ skip a p = after a p.
Proof.
  intros Ha Hr. unfold after in Hr. pose proof hsz_pos.
  assert (Z.abs p < half) by lia.
  assert (W : wabs p = Z.abs p) by (unfold wabs; apply wrap_id; lia).
  split; [lia|]. split; [done|].
  unfold skip. rewrite W, wrap_id; unfold after; lia.
Qed.

Lemma heap_end_exact (h : flashheap) :
  geometry h -> heap_end h = heap_offset h + heap_size h.
Proof. intros (Ho & Hz & Hs). unfold heap_end. apply wrap_id. pose proof half_pos. lia. Qed.

(** The test of [flashheap_alloc] on a header that is not the least value of
    its type decides [fits]. *)
Lemma fits_test (size p : Z) :
  - half < p < half ->
  ((p <? 0) && (size <=? wrap (- p)) = true <-> fits size p).
Proof.
  intros Hp. rewrite wrap_id by lia. unfold fits.
  rewrite andb_true_iff, Z.ltb_lt, Z.leb_le. lia.
Qed.

(** ** The loops along a chain *)

Lemma alloc_loop_chain (h : flashheap) (size : Z) (pre : list Z) :
  forall (fuel : nat) (d : flash) (a : Z),
    0 <= a ->
    chain (cells d) (heap_end h) a pre ->
    Forall (fun p => ~ fits size p) pre ->
    calm (length pre) d ->
    alloc_loop (length pre + fuel) h d size a =
    alloc_loop fuel h (reads d (chain_addrs a pre)) size (chain_end a pre).
Proof.
  induction pre as [|p pre IH]; intros fuel d a Ha Hc Hn Hq; [done|].
  destruct Hc as (Hlt & Hp & Hr & Hc).
  apply Forall_cons in Hn as [Hn1 Hn].
  destruct (chain_step a p Ha Hr) as (Hrange & _ & Hskip).
  cbn [length Nat.add alloc_loop chain_addrs chain_end reads].
  destruct (Z.ltb_spec a (heap_end h)); [|lia].
  rewrite (packet_read_calm _ _ _ Hq), Hp, Hskip.
  destruct ((p <? 0) && (size <=? wrap (- p))) eqn:T.
  { apply fits_test in T; done. }
  apply IH; try done.
  - pose proof (after_gt a p). pose proof hsz_pos. lia.
  - now apply calm_moved.
Qed.

Lemma free_search_chain (lim desired : Z) (pre : list Z) :
  forall (fuel : nat) (d : flash) (a : Z) (packet : option Z) (pa psz : Z),
    0 <= a ->
    chain (cells d) lim a pre ->
    ~ In desired (chain_addrs a pre) ->
    calm (length pre) d ->
    free_search (length pre + fuel) lim desired d a packet pa psz =
    let '(packet', pa', psz') := search_locals a pre (packet, pa, psz) in
    free_search fuel lim desired (reads d (chain_addrs a pre))
                (chain_end a pre) packet' pa' psz'.
Proof.
  induction pre as [|p pre IH]; intros fuel d a packet pa psz Ha Hc Hn Hq; [done|].
  destruct Hc as (Hlt & Hp & Hr & Hc).
  destruct (chain_step a p Ha Hr) as (Hrange & _ & Hskip).
  cbn [length Nat.add free_search chain_addrs chain_end reads search_locals].
  destruct (Z.ltb_spec a lim); [|lia].
  rewrite (packet_read_calm _ _ _ Hq), Hp, Hskip.
  destruct (Z.eqb_spec a desired) as [->|_].
  { exfalso. apply Hn. now left. }
  apply IH; try done.
  - pose proof (after_gt a p). pose proof hsz_pos. lia.
  - intros Hin. apply Hn. now right.
  - now apply calm_moved.
Qed.

Lemma search_locals_app (ps : list Z) (q a : Z) (loc : option Z * Z * Z) :
  search_locals a (ps ++ [q]) loc = (Some q, chain_end a ps, q).
Proof. revert a loc; induction ps as [|p ps IH]; intros a loc; simpl; [done|]. apply IH. Qed.

Lemma search_locals_prev (ps : list Z) (a : Z) :
  search_locals a ps (None, 0, 0) =
  (fst (fst (search_locals a ps (None, 0, 0))),
   fst (prev_of a ps), snd (prev_of a ps)).
Proof.
  unfold prev_of. now destruct (search_locals a ps (None, 0, 0)) as [[k x] y].
Qed.

(** [flashheap_free] on the address of a packet that the scan reaches and
    that is not free: what is left to do after the search. *)
Lemma free_at (h : flashheap) (pre : list Z) (c : Z) (fuel : nat) :
  geometry h ->
  chain (cells (heap_dev h)) (heap_offset h + heap_size h) (heap_offset h)
        (pre ++ [c]) ->
  0 <= c ->
  calm (S (length pre)) (heap_dev h) ->
  (length pre < fuel)%nat ->
  flashheap_free fuel h (chain_end (heap_offset h) pre) =
  let a := chain_end (heap_offset h) pre in
  let d1 := reads (heap_dev h) (chain_addrs (heap_offset h) (pre ++ [c])) in
  match flashheap_packet_read d1 (after a c) with
  | (None, d') => Some (false, with_dev h d')
  | (Some next_size, d') =>
      let '(addr', p') :=
        coalesce a (- c) (fst (prev_of (heap_offset h) pre))
                 (snd (prev_of (heap_offset h) pre)) next_size in
      let '(ok, d'') := packet_write d' addr' p' in
      Some (ok, with_dev h d'')
  end.
Proof.
  intros G Hc Hpos Hq Hfuel.
  pose proof G as (Ho & Hz & Hs).
  apply chain_app in Hc as [Hpre (Hlt & Hh & Hr & _)].
  set (a := chain_end (heap_offset h) pre) in *.
  assert (Ha : 0 <= a).
  { pose proof (chain_end_ge pre (heap_offset h)). unfold a. lia. }
  destruct (chain_step a c Ha Hr) as (Hrange & _ & _).
  unfold flashheap_free.
  rewrite heap_end_exact by done.
  replace fuel with (length pre + S (fuel - S (length pre)))%nat by lia.
  rewrite free_search_chain; try done; try lia.
  2: { intros Hin. apply chain_addrs_lt in Hin. pose proof hsz_pos. fold a in Hin. lia. }
  2: { eapply calm_le; [|exact Hq]. lia. }
  rewrite search_locals_prev. fold a.
  cbn [free_search].
  destruct (Z.ltb_spec a (heap_offset h + heap_size h)); [|lia].
  assert (Hq1 : calm 1 (reads (heap_dev h) (chain_addrs (heap_offset h) pre))).
  { apply calm_reads. rewrite chain_addrs_length.
    eapply calm_le; [|exact Hq]. lia. }
  rewrite (packet_read_calm _ _ _ Hq1), cells_reads, Hh.
  rewrite Z.eqb_refl. rewrite Z.eqb_refl. cbn [negb].
  destruct (Z.ltb_spec c 0); [lia|].
  rewrite (wrap_id (- c)) by lia.
  assert (Hskip : skip a (- c) = after a c).
  { replace (after a c) with (after a (- c)) by (unfold after; lia).
    apply chain_step; [done|]. unfold after in *. lia. }
  rewrite Hskip, chain_addrs_app, reads_app.
  cbn [chain_addrs reads]. now rewrite cells_reads.
Qed.

(** C10 (as amended) - [flashheap_free] reads past the end of the region
    for the last packet.  Let the packets [pre ++ [c]] tile the region, the
    last one allocated, and let the reads of the search succeed.  Then freeing the
    last packet always asks the device for the header at [offset + size],
    the first address after the region; the call succeeds only if that
    read succeeds; and when the value read there is negative it is taken
    for a free right neighbour: the one header written is the sum of the
    negated header, that value and one negated header size (and the left
    neighbour with one more header size, when that is free too). *)
Theorem free_last_reads_past_end (h : flashheap) (pre : list Z) (c : Z)
    (fuel : nat) :
  geometry h ->
  tiled h (pre ++ [c]) ->
  0 <= c ->
  calm (S (length pre)) (heap_dev h) ->
  (length pre < fuel)%nat ->
  let a := chain_end (heap_offset h) pre in
  let lim := heap_offset h + heap_size h in
  let d1 := reads (heap_dev h) (chain_addrs (heap_offset h) (pre ++ [c])) in
  let nx := header_at (cells (heap_dev h)) lim in
  let pa := fst (prev_of (heap_offset h) pre) in
  let psz := snd (prev_of (heap_offset h) pre) in
  exists (r : bool) (h' : flashheap),
    flashheap_free fuel h a = Some (r, h') /\
    (exists ok ws,
       trace (heap_dev h') = trace d1 ++ EvRead lim ok :: ws /\
       (r = true -> ok = true)) /\
    (next_fault d1 = false -> nx < 0 ->
     exists okw,
       r = okw /\
       trace (heap_dev h') =
         trace d1 ++
         [EvRead lim true;
          if psz <? 0
          then EvWrite pa (encode hbytes (wrap (- c + (psz + nx - 2 * hsz)))) okw
          else EvWrite a (encode hbytes (wrap (- c + (nx - hsz)))) okw]).
Proof.
  intros G T Hc Hq Hfuel a lim d1 nx pa psz.
  destruct T as [Hch He].
  rewrite chain_end_app in He. cbn [chain_end] in He. fold a in He.
  pose proof (free_at h pre c fuel G Hch Hc Hq Hfuel) as E.
  cbn zeta in E. fold a d1 pa psz in E. rewrite He in E. fold lim in E.
  rewrite E. clear E.
  destruct (packet_read_cases d1 lim) as [[F R]|[F R]]; rewrite R.
  { eexists _, _. split; [done|]. split; [|congruence].
    exists false, []. simpl. done. }
  assert (Hc1 : cells d1 = cells (heap_dev h)) by apply cells_reads.
  rewrite Hc1. fold nx.
  set (d2 := moved d1 (cells (heap_dev h)) (EvRead lim true)).
  destruct (coalesce a (- c) pa psz nx) as [a' p'] eqn:C.
  destruct (packet_write_cases d2 a' p') as [[_ W]|[_ W]]; rewrite W.
  - eexists _, _. split; [done|]. split.
    + eexists true, [_]. simpl. rewrite <- app_assoc. done.
    + intros _ Hn. exists false. split; [done|]. simpl.
      rewrite <- app_assoc. simpl. do 3 f_equal.
      unfold coalesce in C.
      destruct (Z.ltb_spec nx 0); [|lia].
      destruct (psz <? 0); simpl in C; now inversion C.
  - eexists _, _. split; [done|]. split.
    + eexists true, [_]. simpl. rewrite <- app_assoc. done.
    + intros _ Hn. exists true. split; [done|]. simpl.
      rewrite <- app_assoc. simpl. do 3 f_equal.
      unfold coalesce in C.
      destruct (Z.ltb_spec nx 0); [|lia].
      destruct (psz <? 0); simpl in C; now inversion C.
Qed.

(** ** flashheap_alloc along a chain *)

Lemma alloc_take_calm (h : flashheap) (d : flash) (a c size : Z) :
  calm 2 d ->
  alloc_take h d a c size =
    (a, Heap (taken d a c size) (heap_offset h) (heap_size h) a).
Proof.
  intros Hq. unfold alloc_take, taken.
  destruct (size =? wrap (- c)); cbn [negb].
  - rewrite (packet_write_calm 1 d) by done. done.
  - rewrite (packet_write_calm 1 d) by done. cbn [negb].
    rewrite (packet_write_calm 0) by now apply calm_moved. done.
Qed.

Lemma taken_header (d : flash) (a c size : Z) :
  header_at (cells (taken d a c size)) a = wrap size.
Proof.
  unfold taken. destruct (size =? wrap (- c)); simpl;
    apply header_at_store_same.
Qed.

(** The scan passes the packets [pre], none of which fits, and takes the
    packet [c] that follows them. *)
Lemma alloc_found (h : flashheap) (size : Z) (pre : list Z) (c : Z)
    (fuel : nat) :
  geometry h ->
  calm (length pre + 3) (heap_dev h) ->
  chain (cells (heap_dev h)) (heap_offset h + heap_size h) (heap_offset h)
        (pre ++ [c]) ->
  Forall (fun p => ~ fits size p) pre ->
  fits size c ->
  (length pre < fuel)%nat ->
  flashheap_alloc fuel h size =
  Some (chain_end (heap_offset h) pre,
        Heap (taken (reads (heap_dev h)
                           (chain_addrs (heap_offset h) (pre ++ [c])))
                    (chain_end (heap_offset h) pre) c size)
             (heap_offset h) (heap_size h) (chain_end (heap_offset h) pre)).
Proof.
  intros G Hq Hc Hn Hf Hfuel.
  pose proof G as (Ho & Hz & Hs).
  apply chain_app in Hc as [Hpre (Hlt & Hh & Hr & _)].
  set (a := chain_end (heap_offset h) pre) in *.
  assert (Ha : 0 <= a).
  { pose proof (chain_end_ge pre (heap_offset h)). unfold a. lia. }
  destruct (chain_step a c Ha Hr) as (Hrange & _ & _).
  unfold flashheap_alloc.
  replace fuel with (length pre + S (fuel - S (length pre)))%nat by lia.
  rewrite alloc_loop_chain; try done; try lia.
  2: { now rewrite heap_end_exact. }
  2: { eapply calm_le; [|exact Hq]. lia. }
  fold a. cbn [alloc_loop]. rewrite heap_end_exact by done.
  destruct (Z.ltb_spec a (heap_offset h + heap_size h)); [|lia].
  assert (Hq1 : calm 3 (reads (heap_dev h) (chain_addrs (heap_offset h) pre))).
  { apply calm_reads. rewrite chain_addrs_length.
    eapply calm_le; [|exact Hq]. lia. }
  rewrite (packet_read_calm _ _ _ Hq1), cells_reads, Hh.
  apply (fits_test size c Hrange) in Hf. rewrite Hf.
  rewrite alloc_take_calm by now apply calm_moved.
  rewrite chain_addrs_app, reads_app.
  cbn [chain_addrs reads]. now rewrite cells_reads.
Qed.

(** The scan passes the packets [pre], none of which fits, and leaves the
    region. *)
Lemma alloc_none (h : flashheap) (size : Z) (pre : list Z) (fuel : nat) :
  geometry h ->
  calm (length pre) (heap_dev h) ->
  chain (cells (heap_dev h)) (heap_offset h + heap_size h) (heap_offset h) pre ->
  Forall (fun p => ~ fits size p) pre ->
  heap_offset h + heap_size h <= chain_end (heap_offset h) pre ->
  (length pre <= fuel)%nat ->
  flashheap_alloc fuel h size =
  Some (0, with_dev h (reads (heap_dev h) (chain_addrs (heap_offset h) pre))).
Proof.
  intros G Hq Hc Hn He Hfuel.
  pose proof G as (Ho & Hz & Hs).
  unfold flashheap_alloc.
  replace fuel with (length pre + (fuel - length pre))%nat by lia.
  rewrite alloc_loop_chain; try done; try lia.
  2: { now rewrite heap_end_exact. }
  assert (E : (chain_end (heap_offset h) pre <? heap_end h) = false).
  { rewrite heap_end_exact by done. apply Z.ltb_ge. lia. }
  destruct (fuel - length pre)%nat; simpl; now rewrite E.
Qed.

Lemma taken_trace (d : flash) (a c size : Z) :
  exists ws : list event,
    Forall (fun ev => ~ is_read ev) ws /\
    trace (taken d a c size) = trace d ++ ws.
Proof.
  unfold taken. destruct (size =? wrap (- c)); simpl.
  - eexists [_]. split; [|done]. repeat constructor. now intros [].
  - eexists [_; _]. rewrite <- app_assoc. split; [|done].
    repeat constructor; now intros [].
Qed.

(** C5 - First fit.  In a heap whose scan passes the packets [pre], none of
    them free with room for [size], [flashheap_alloc] reads exactly those
    packets in order and then: if the next packet [c] is free with room
    for [size], it takes that packet, whatever follows it (first fit, not
    best fit), records its address in [last] and returns it, and the
    header there now holds [size]; if instead the scan has left the region,
    it returns none, has asked for no write and leaves cells and [last] as
    they were. *)
Theorem alloc_first_fit (h : flashheap) (size : Z) (pre : list Z)
    (fuel : nat) :
  geometry h ->
  quiet (heap_dev h) ->
  chain (cells (heap_dev h)) (heap_offset h + heap_size h) (heap_offset h) pre ->
  Forall (fun p => ~ fits size p) pre ->
  (length pre < fuel)%nat ->
  let lim := heap_offset h + heap_size h in
  let a := chain_end (heap_offset h) pre in
  (forall c : Z,
     chain (cells (heap_dev h)) lim a [c] -> fits size c ->
     exists (h' : flashheap) (ws : list event),
       flashheap_alloc fuel h size = Some (a, h') /\
       heap_last h' = a /\
       header_at (cells (heap_dev h')) a = wrap size /\
       Forall (fun ev => ~ is_read ev) ws /\
       trace (heap_dev h') =
         trace (heap_dev h) ++
         map (fun b => EvRead b true) (chain_addrs (heap_offset h) pre ++ [a]) ++
         ws) /\
  (lim <= a ->
   exists h' : flashheap,
     flashheap_alloc fuel h size = Some (0, h') /\
     cells (heap_dev h') = cells (heap_dev h) /\
     heap_last h' = heap_last h /\
     trace (heap_dev h') =
       trace (heap_dev h) ++
       map (fun b => EvRead b true) (chain_addrs (heap_offset h) pre)).
Proof.
  intros G Hq Hpre Hn Hfuel lim a. split.
  - intros c Hc Hf.
    assert (Hall : chain (cells (heap_dev h)) lim (heap_offset h) (pre ++ [c])).
    { apply chain_app. done. }
    pose proof (alloc_found h size pre c fuel G (Hq _) Hall Hn Hf Hfuel) as E.
    fold a in E.
    destruct (taken_trace
                (reads (heap_dev h) (chain_addrs (heap_offset h) (pre ++ [c])))
                a c size) as (ws & Hws & Ht).
    eexists _, ws. split; [exact E|]. cbn [heap_last heap_dev].
    split; [done|]. split; [apply taken_header|]. split; [done|].
    rewrite Ht, trace_reads, chain_addrs_app, <- app_assoc. done.
  - intros He.
    pose proof (alloc_none h size pre fuel G (Hq _) Hpre Hn He ltac:(lia)) as E.
    eexists. split; [exact E|]. cbn [with_dev heap_last heap_dev].
    rewrite cells_reads, trace_reads. done.
Qed.

Lemma taken_quiet (d : flash) (a c size : Z) :
  quiet d -> quiet (taken d a c size).
Proof.
  intros Hq. unfold taken. destruct (size =? wrap (- c)).
  - now apply quiet_moved.
  - cbv zeta. apply quiet_moved. now apply quiet_moved.
Qed.

(** The packets after [taken] has split a free packet that leaves more than
    one header of room. *)
Lemma split_tiles (h : flashheap) (d : flash) (size : Z) (pre post : list Z)
    (c : Z) :
  geometry h ->
  cells d = cells (heap_dev h) ->
  tiled h (pre ++ c :: post) ->
  c < 0 -> 0 <= size -> hsz < - c - size ->
  let a := chain_end (heap_offset h) pre in
  let rest := - (- c - size - hsz) in
  let h' := Heap (taken d a c size) (heap_offset h) (heap_size h) a in
  trace (heap_dev h') =
    trace d ++ [EvWrite (a + hsz + size) (encode hbytes rest) true;
                EvWrite a (encode hbytes size) true] /\
  header_at (cells (heap_dev h')) a = size /\
  header_at (cells (heap_dev h')) (a + hsz + size) = rest /\
  tiled h' (pre ++ size :: rest :: post).
Proof.
  intros G Hd [Hch He] Hc Hs Hroom a rest h'.
  pose proof G as (Ho & Hz & Hlim).
  pose proof hsz_pos as Hh.
  apply chain_app in Hch as [Hpre Hcp]. fold a in Hcp.
  pose proof Hcp as (Hlt & Hhd & Hr & Hpost).
  rewrite chain_end_app in He. fold a in He. cbn [chain_end] in He.
  assert (Ha : 0 <= a).
  { pose proof (chain_end_ge pre (heap_offset h)). unfold a. lia. }
  destruct (chain_step a c Ha Hr) as (Hrange & _ & _).
  pose proof (chain_end_ge post (after a c)) as Hge.
  assert (Hac : after a c = a + hsz - c) by (unfold after; lia).
  unfold h'. cbn [heap_dev]. unfold taken.
  rewrite (wrap_id (- c)) by lia.
  destruct (Z.eqb_spec size (- c)) as [|_]; [lia|].
  rewrite (wrap_id (a + hsz + size)) by lia.
  rewrite (wrap_id (- (- c - size - hsz))) by lia. fold rest.
  cbn [cells trace moved]. rewrite Hd.
  set (m := cells (heap_dev h)) in *.
  set (na := a + hsz + size).
  set (m' := store (store m na (encode hbytes rest)) a (encode hbytes size)).
  assert (Hha : header_at m' a = size).
  { unfold m'. rewrite header_at_store_same. apply wrap_id. lia. }
  assert (Hhn : header_at m' na = rest).
  { unfold m'. rewrite header_at_store_other by (unfold na; lia).
    rewrite header_at_store_same. apply wrap_id. unfold rest. lia. }
  split; [now rewrite <- app_assoc|].
  split; [done|]. split; [done|].
  assert (Hnext : after na rest = after a c) by (unfold after, na, rest; lia).
  split; cbn [heap_dev heap_offset heap_size cells].
  - apply chain_app. fold a. split.
    + unfold m'. apply chain_store; [fold a; lia|].
      apply chain_store; [fold a; unfold na; lia|]. done.
    + cbn [chain].
      replace (after a size) with na by (unfold after, na; lia).
      rewrite Hnext.
      repeat split; try done; try (unfold na; lia).
      unfold m'. apply chain_store; [right; lia|].
      apply chain_store; [right; unfold na; lia|]. done.
  - rewrite chain_end_app. fold a. cbn [chain_end].
    replace (after a size) with na by (unfold after, na; lia).
    now rewrite Hnext.
Qed.

(** C3 (as amended) - Split.  Let the packets [pre ++ c :: post] tile the
    region, [c] a free packet of capacity [C = - c], and let the request
    [size] be non-negative and leave more than one header of room,
    [C - size > hsz].  When [flashheap_alloc] selects this packet (no
    packet of [pre] fits), it first writes at [a + hsz + size] a free
    header of magnitude [C - size - hsz], then writes the allocated header
    [size] at the address [a] of the packet, and returns [a]: the region is
    now tiled by the same packets with [c] replaced by an allocated packet
    of [size] followed by a free packet of capacity [C - size - hsz]. *)
Theorem alloc_split (h : flashheap) (size : Z) (pre post : list Z) (c : Z)
    (fuel : nat) :
  geometry h ->
  quiet (heap_dev h) ->
  tiled h (pre ++ c :: post) ->
  Forall (fun p => ~ fits size p) pre ->
  c < 0 -> 0 <= size -> hsz < - c - size ->
  (length pre < fuel)%nat ->
  let a := chain_end (heap_offset h) pre in
  let rest := - (- c - size - hsz) in
  exists h' : flashheap,
    flashheap_alloc fuel h size = Some (a, h') /\
    trace (heap_dev h') =
      trace (reads (heap_dev h) (chain_addrs (heap_offset h) (pre ++ [c]))) ++
      [EvWrite (a + hsz + size) (encode hbytes rest) true;
       EvWrite a (encode hbytes size) true] /\
    header_at (cells (heap_dev h')) a = size /\
    header_at (cells (heap_dev h')) (a + hsz + size) = rest /\
    rest < 0 /\ Z.abs rest = - c - size - hsz /\
    tiled h' (pre ++ size :: rest :: post).
Proof.
  intros G Hq T Hn Hc Hs Hroom Hfuel a rest.
  assert (Hall : chain (cells (heap_dev h)) (heap_offset h + heap_size h)
                       (heap_offset h) (pre ++ [c])).
  { destruct T as [Hch _]. apply chain_app in Hch as [Hpre (? & ? & ? & _)].
    apply chain_app. simpl. done. }
  pose proof hsz_pos as Hh.
  assert (Hf : fits size c) by (unfold fits; lia).
  pose proof (alloc_found h size pre c fuel G (Hq _) Hall Hn Hf Hfuel) as E.
  fold a in E. eexists. split; [exact E|].
  destruct (split_tiles h
              (reads (heap_dev h) (chain_addrs (heap_offset h) (pre ++ [c])))
              size pre post c G (cells_reads _ _) T Hc Hs Hroom)
    as (Ht & Hha & Hhn & T').
  repeat (split; [done|]). split; [unfold rest; lia|].
  split; [unfold rest; lia | done].
Qed.

(** ** Erase, allocate, free *)

(** One free packet that spans the region. *)
Lemma tiled_whole (h : flashheap) :
  geometry h -> hsz <= heap_size h ->
  header_at (cells (heap_dev h)) (heap_offset h) = - (heap_size h - hsz) ->
  tiled h [- (heap_size h - hsz)].
Proof.
  intros (Ho & Hz & Hlim) Hs Hh. pose proof hsz_pos.
  unfold tiled. cbn [chain chain_end]. unfold after. repeat split; try done; lia.
Qed.

(** C4 (as amended) - Round trip.  On a device that does not fault, for
    every size with [0 <= size < heap_size - 2 * hsz], [flashheap_erase]
    succeeds and leaves one free packet of magnitude [heap_size - hsz] at
    [offset]; [flashheap_alloc] of [size] then returns [offset];
    [flashheap_free] of that address then succeeds, and the region is again
    tiled by the one free packet of magnitude [heap_size - hsz] at
    [offset]. *)
Theorem erase_alloc_free_round_trip (h : flashheap) (size : Z) (fuel : nat) :
  geometry h ->
  quiet (heap_dev h) ->
  0 <= size < heap_size h - 2 * hsz ->
  (0 < fuel)%nat ->
  let whole := - (heap_size h - hsz) in
  exists h1 h2 h3 : flashheap,
    flashheap_erase h = (true, h1) /\
    tiled h1 [whole] /\
    flashheap_alloc fuel h1 size = Some (heap_offset h, h2) /\
    flashheap_free fuel h2 (heap_offset h) = Some (true, h3) /\
    heap_offset h3 = heap_offset h /\ heap_size h3 = heap_size h /\
    tiled h3 [whole].
Proof.
  intros G Hq Hs Hfuel whole.
  pose proof G as (Ho & Hz & Hlim). pose proof hsz_pos as Hh.
  assert (Hw : wrap whole = whole) by (apply wrap_id; unfold whole; lia).
  (* erase *)
  set (h1 := with_dev h
               (moved (heap_dev h)
                  (store (cells (heap_dev h)) (heap_offset h)
                         (encode hbytes whole))
                  (EvWrite (heap_offset h) (encode hbytes whole) true))).
  assert (E1 : flashheap_erase h = (true, h1)).
  { unfold flashheap_erase. fold whole. rewrite Hw.
    now rewrite (packet_write_calm 0) by apply Hq. }
  assert (G1 : geometry h1) by done.
  assert (Q1 : quiet (heap_dev h1)) by now apply quiet_moved.
  assert (T1 : tiled h1 ([] ++ whole :: [])).
  { apply tiled_whole; [done | simpl; lia |].
    simpl. rewrite header_at_store_same. done. }
  (* alloc *)
  assert (Hroom : hsz < - whole - size) by (unfold whole; lia).
  assert (Hneg : whole < 0) by (unfold whole; lia).
  assert (E2 := alloc_found h1 size [] whole fuel G1 (Q1 _) (proj1 T1)
                  ltac:(constructor) ltac:(unfold fits; lia) Hfuel).
  cbn [chain_end chain_addrs app] in E2.
  set (d2 := taken (reads (heap_dev h1) [heap_offset h1]) (heap_offset h1)
                   whole size) in E2.
  set (h2 := Heap d2 (heap_offset h1) (heap_size h1) (heap_offset h1)) in E2.
  destruct (split_tiles h1 (reads (heap_dev h1) [heap_offset h1]) size [] []
              whole G1 eq_refl T1 Hneg ltac:(lia) Hroom)
    as (_ & _ & _ & [C2 _]).
  cbn [chain_end app] in C2. fold d2 h2 in C2.
  set (rest := - (- whole - size - hsz)) in *.
  assert (Q2 : quiet (heap_dev h2)) by (apply taken_quiet, quiet_moved, Q1).
  assert (G2 : geometry h2) by done.
  pose proof C2 as (Hlt & Hh0 & Hr0 & _ & Hh1 & _).
  (* free *)
  assert (C2' : chain (cells (heap_dev h2)) (heap_offset h2 + heap_size h2)
                      (heap_offset h2) ([] ++ [size])).
  { simpl. done. }
  pose proof (free_at h2 [] size fuel G2 C2' ltac:(lia) (Q2 _) Hfuel) as E3.
  cbn [chain_end app chain_addrs reads prev_of search_locals fst snd] in E3.
  rewrite (packet_read_calm 0) in E3 by (apply quiet_moved, Q2).
  cbn [cells moved] in E3.
  change (heap_offset h2) with (heap_offset h) in *.
  change (heap_offset h1) with (heap_offset h) in *.
  rewrite Hh1 in E3.
  unfold coalesce in E3. cbn [Z.ltb Z.compare andb] in E3.
  destruct (Z.ltb_spec rest 0); [|unfold rest in *; lia].
  rewrite (wrap_id (- size + (rest - hsz))) in E3 by (unfold rest, whole; lia).
  replace (- size + (rest - hsz)) with whole in E3 by (unfold rest, whole; lia).
  rewrite (packet_write_calm 0) in E3 by (do 2 apply quiet_moved; apply Q2).
  cbv beta iota in E3.
  match type of E3 with _ = Some (true, ?x) => set (h3 := x) in * end.
  exists h1, h2, h3. repeat (split; [done|]).
  apply (tiled_whole h3); [done | cbn; lia |].
  unfold h3. cbn [heap_dev with_dev cells moved]. fold whole.
  now rewrite header_at_store_same.
Qed.

(** ** Coalescing inside the region *)

(** Writing, at the start of a run [seg] of packets, a header whose
    magnitude spans the whole run, turns the run into one packet. *)
Lemma merge_tiles (h : flashheap) (d' : flash) (pre seg post : list Z)
    (v : Z) :
  geometry h ->
  tiled h (pre ++ seg ++ post) ->
  seg <> [] ->
  v = - (chain_end (chain_end (heap_offset h) pre) seg
         - chain_end (heap_offset h) pre - hsz) ->
  cells d' = store (cells (heap_dev h)) (chain_end (heap_offset h) pre)
                   (encode hbytes v) ->
  tiled (with_dev h d') (pre ++ v :: post).
Proof.
  intros (Ho & Hz & Hlim) [Hch He] Hne Hv Hd.
  pose proof hsz_pos as Hh.
  set (a := chain_end (heap_offset h) pre) in *.
  apply chain_app in Hch as [Hpre Hch]. fold a in Hch.
  apply chain_app in Hch as [Hseg Hpost].
  rewrite !chain_end_app in He. fold a in He.
  set (e := chain_end a seg) in *.
  pose proof (chain_end_ge post e) as Hge.
  pose proof (chain_end_ge pre (heap_offset h)) as Hga. fold a in Hga.
  assert (Hspan : a + hsz <= e /\ a < heap_offset h + heap_size h).
  { destruct seg as [|s seg]; [done|]. destruct Hseg as (Hlt & _).
    unfold e. cbn [chain_end].
    pose proof (chain_end_ge seg (after a s)). pose proof (after_gt a s). lia. }
  assert (Hafter : after a v = e) by (unfold after; lia).
  unfold tiled. cbn [with_dev heap_dev heap_offset heap_size]. rewrite Hd.
  split.
  - apply chain_app. fold a. split; [apply chain_store; [fold a; lia | done]|].
    cbn [chain]. rewrite Hafter, header_at_store_same.
    split; [lia|]. split; [apply wrap_id; lia|]. split; [lia|].
    apply chain_store; [right; lia | done].
  - rewrite chain_end_app. fold a. cbn [chain_end]. now rewrite Hafter.
Qed.

(** Freeing an allocated packet that has a packet on either side inside
    the region follows the four-case rule and keeps the tiling. *)
Lemma free_inner (h : flashheap) (pre post : list Z) (p c n : Z) (fuel : nat) :
  geometry h ->
  quiet (heap_dev h) ->
  tiled h (pre ++ p :: c :: n :: post) ->
  0 <= c ->
  (S (length pre) < fuel)%nat ->
  exists h' : flashheap,
    flashheap_free fuel h (chain_end (heap_offset h) (pre ++ [p])) =
      Some (true, h') /\
    tiled h' (pre ++ freed p c n ++ post).
Proof.
  intros G Hq T Hc Hfuel. pose proof hsz_pos as Hh.
  pose proof G as (Ho & Hz & Hlim).
  pose proof T as [Hch He].
  assert (Hsplit : pre ++ p :: c :: n :: post = (pre ++ [p]) ++ [c] ++ n :: post)
    by now rewrite <- app_assoc.
  rewrite Hsplit in Hch.
  apply chain_app in Hch as [Hpre Hch].
  set (a := chain_end (heap_offset h) (pre ++ [p])) in *.
  pose proof Hch as (Hlt & Hhc & Hrc & Hltn & Hhn & Hrn & Hpost).
  assert (Hall : chain (cells (heap_dev h)) (heap_offset h + heap_size h)
                       (heap_offset h) ((pre ++ [p]) ++ [c])).
  { apply chain_app. fold a. simpl. done. }
  pose proof (free_at h (pre ++ [p]) c fuel G Hall Hc (Hq _)) as E.
  rewrite length_app in E. cbn [length] in E.
  specialize (E ltac:(lia)). cbv zeta in E. fold a in E.
  rewrite (packet_read_calm 0) in E by (apply quiet_reads, Hq).
  rewrite cells_reads, Hhn in E.
  unfold prev_of in E. rewrite search_locals_app in E. cbn [fst snd] in E.
  set (pa := chain_end (heap_offset h) pre) in *.
  assert (Ha : a = after pa p).
  { unfold a, pa. now rewrite chain_end_app. }
  apply chain_app in Hpre as [Hpre0 (Hltp & Hhp & Hrp & _)]. fold pa in Hltp, Hhp, Hrp.
  pose proof (chain_end_ge pre (heap_offset h)) as Hgp. fold pa in Hgp.
  assert (Hrange : - half < p < half /\ - half < n < half).
  { split; [apply (chain_step pa p) | apply (chain_step (after a c) n)];
      try done; unfold after in *; lia. }
  set (d1 := moved (reads (heap_dev h)
                      (chain_addrs (heap_offset h) ((pre ++ [p]) ++ [c])))
                   (cells (heap_dev h)) (EvRead (after a c) true)) in E.
  assert (Q1 : quiet d1) by (apply quiet_moved, quiet_reads, Hq).
  unfold coalesce in E. unfold freed.
  destruct (Z.ltb_spec p 0) as [Hp|Hp]; destruct (Z.ltb_spec n 0) as [Hn|Hn];
    cbn [andb] in E |- *;
    rewrite ?wrap_id in E by (unfold after in *; lia);
    rewrite (packet_write_calm 0) in E by apply Q1;
    (eexists; split; [exact E|]).
  - (* both neighbours free *)
    apply (merge_tiles h _ pre [p; c; n] post); try done.
    + cbn [chain_end]. fold pa. rewrite <- Ha. unfold after in *. lia.
    + unfold d1. cbn [cells moved]. fold pa. do 2 f_equal. lia.
  - (* only the left neighbour free *)
    apply (merge_tiles h _ pre [p; c] (n :: post)); try done.
    + cbn [chain_end]. fold pa. rewrite <- Ha. unfold after in *. lia.
    + unfold d1. cbn [cells moved]. fold pa. do 2 f_equal. lia.
  - (* only the right neighbour free *)
    replace (pre ++ [p; - (c + Z.abs n + hsz)] ++ post)
      with ((pre ++ [p]) ++ - (c + Z.abs n + hsz) :: post)
      by now rewrite <- app_assoc.
    apply (merge_tiles h _ (pre ++ [p]) [c; n] post); try done.
    + now rewrite <- app_assoc.
    + fold a. cbn [chain_end]. unfold after in *. lia.
    + unfold d1. cbn [cells moved]. fold a. do 2 f_equal. lia.
  - (* no neighbour free *)
    replace (pre ++ [p; - c; n] ++ post) with ((pre ++ [p]) ++ - c :: n :: post)
      by now rewrite <- app_assoc.
    apply (merge_tiles h _ (pre ++ [p]) [c] (n :: post)); try done.
    + now rewrite <- app_assoc.
    + fold a. cbn [chain_end]. unfold after in *. lia.
Qed.

(** The same for the first packet of the region, which has no left
    neighbour. *)
Lemma free_first (h : flashheap) (post : list Z) (c n : Z) (fuel : nat) :
  geometry h ->
  quiet (heap_dev h) ->
  tiled h (c :: n :: post) ->
  0 <= c ->
  (0 < fuel)%nat ->
  exists h' : flashheap,
    flashheap_free fuel h (heap_offset h) = Some (true, h') /\
    tiled h' ((if n <? 0 then [- (c + Z.abs n + hsz)] else [- c; n]) ++ post).
Proof.
  intros G Hq T Hc Hfuel. pose proof hsz_pos as Hh.
  pose proof G as (Ho & Hz & Hlim).
  pose proof T as [Hch He].
  pose proof Hch as (Hlt & Hhc & Hrc & Hltn & Hhn & Hrn & Hpost).
  set (a := heap_offset h) in *.
  assert (Hall : chain (cells (heap_dev h)) (a + heap_size h) a ([] ++ [c])).
  { simpl. done. }
  pose proof (free_at h [] c fuel G Hall Hc (Hq _) Hfuel) as E.
  cbv zeta in E. cbn [chain_end app prev_of search_locals fst snd] in E.
  fold a in E.
  rewrite (packet_read_calm 0) in E by (apply quiet_reads, Hq).
  rewrite cells_reads, Hhn in E.
  assert (Hrange : - half < n < half).
  { apply (chain_step (after a c) n); try done; unfold after in *; lia. }
  set (d1 := moved (reads (heap_dev h) (chain_addrs a [c]))
                   (cells (heap_dev h)) (EvRead (after a c) true)) in E.
  assert (Q1 : quiet d1) by (apply quiet_moved, quiet_reads, Hq).
  unfold coalesce in E. cbn [Z.ltb Z.compare andb] in E.
  destruct (Z.ltb_spec n 0) as [Hn|Hn];
    rewrite ?wrap_id in E by (unfold after in *; lia);
    rewrite (packet_write_calm 0) in E by apply Q1;
    (eexists; split; [exact E|]).
  - apply (merge_tiles h _ [] [c; n] post); try done.
    + cbn [chain_end]. fold a. unfold after in *. lia.
    + unfold d1. cbn [cells moved chain_end]. fold a. do 2 f_equal. lia.
  - apply (merge_tiles h _ [] [c] (n :: post)); try done.
    cbn [chain_end]. fold a. unfold after in *. lia.
Qed.

(** ** The coalescing invariant *)

Lemma no_adjacent_free_app (pre : list Z) (x : Z) (rest : list Z) :
  no_adjacent_free (pre ++ x :: rest) <->
  no_adjacent_free (pre ++ [x]) /\ no_adjacent_free (x :: rest).
Proof.
  induction pre as [|y pre IH]; [simpl; destruct rest; tauto|].
  destruct pre as [|z pre].
  - simpl. destruct rest; tauto.
  - change ((y :: z :: pre) ++ x :: rest) with (y :: (z :: pre) ++ x :: rest).
    change ((y :: z :: pre) ++ [x]) with (y :: (z :: pre) ++ [x]).
    cbn [no_adjacent_free app] in *. tauto.
Qed.

(** After a free packet comes no free packet, so what comes after it is
    compatible with any packet in its place; likewise for what comes
    before it. *)
Lemma no_adjacent_free_head (n m : Z) (post : list Z) :
  no_adjacent_free (n :: post) -> n < 0 -> no_adjacent_free (m :: post).
Proof. destruct post as [|q post]; simpl; [done|]. intros [H1 H2] Hn. split; [lia | done]. Qed.

Lemma no_adjacent_free_last (pre : list Z) (p m : Z) :
  no_adjacent_free (pre ++ [p]) -> p < 0 -> no_adjacent_free (pre ++ [m]).
Proof.
  induction pre as [|y pre IH]; [done|].
  destruct pre as [|z pre].
  - simpl. intros [H1 _] Hp. split; [lia | done].
  - change ((y :: z :: pre) ++ [p]) with (y :: z :: pre ++ [p]).
    change ((y :: z :: pre) ++ [m]) with (y :: z :: pre ++ [m]).
    intros [H1 H2] Hp. split; [done|]. now apply IH.
Qed.

(** The four-case rule keeps the invariant. *)
Lemma freed_no_adjacent_free (pre post : list Z) (p c n : Z) :
  0 <= c ->
  no_adjacent_free (pre ++ p :: c :: n :: post) ->
  no_adjacent_free (pre ++ freed p c n ++ post).
Proof.
  intros Hc H.
  apply no_adjacent_free_app in H as [Hpre H].
  destruct H as (_ & _ & Hpost). unfold freed.
  destruct (Z.ltb_spec p 0) as [Hp|Hp]; destruct (Z.ltb_spec n 0) as [Hn|Hn];
    cbn [andb app]; apply no_adjacent_free_app.
  - split; [now apply (no_adjacent_free_last pre p)|].
    now apply (no_adjacent_free_head n).
  - split; [now apply (no_adjacent_free_last pre p)|].
    split; [lia | done].
  - split; [done|]. split; [lia|]. now apply (no_adjacent_free_head n).
  - split; [done|]. split; [lia|]. split; [lia | done].
Qed.

(** ** Addresses that flashheap_free refuses *)

(** An address that is neither the start of a packet nor the end of the
    region is refused, and nothing is written. *)
Lemma free_unknown (h : flashheap) (ps : list Z) (ptr : Z) (fuel : nat) :
  geometry h ->
  quiet (heap_dev h) ->
  tiled h ps ->
  ~ In ptr (chain_addrs (heap_offset h) ps) ->
  ptr <> heap_offset h + heap_size h ->
  (length ps <= fuel)%nat ->
  flashheap_free fuel h ptr =
    Some (false, with_dev h (reads (heap_dev h)
                                   (chain_addrs (heap_offset h) ps))).
Proof.
  intros G Hq [Hch He] Hn Hp Hfuel. pose proof G as (Ho & Hz & Hlim).
  unfold flashheap_free. rewrite heap_end_exact by done.
  replace fuel with (length ps + (fuel - length ps))%nat by lia.
  rewrite free_search_chain; try done; try lia.
  destruct (search_locals (heap_offset h) ps (None, 0, 0)) as [[k pa] psz].
  rewrite He.
  assert (E : forall f d, free_search f (heap_offset h + heap_size h) ptr d
                (heap_offset h + heap_size h) k pa psz =
              Some (SearchExit d (heap_offset h + heap_size h) k pa psz)).
  { intros f d. destruct f; simpl; now rewrite Z.ltb_irrefl. }
  rewrite E.
  destruct (Z.eqb_spec (heap_offset h + heap_size h) ptr); [congruence | done].
Qed.

(** The address of a packet that is free already is refused, and nothing
    is written. *)
Lemma free_twice (h : flashheap) (pre post : list Z) (c : Z) (fuel : nat) :
  geometry h ->
  quiet (heap_dev h) ->
  tiled h (pre ++ c :: post) ->
  c < 0 ->
  (length pre < fuel)%nat ->
  flashheap_free fuel h (chain_end (heap_offset h) pre) =
    Some (false, with_dev h (reads (heap_dev h)
                                   (chain_addrs (heap_offset h) (pre ++ [c])))).
Proof.
  intros G Hq [Hch He] Hc Hfuel. pose proof G as (Ho & Hz & Hlim).
  pose proof hsz_pos as Hh.
  apply chain_app in Hch as [Hpre (Hlt & Hh0 & Hr & _)].
  set (a := chain_end (heap_offset h) pre) in *.
  unfold flashheap_free. rewrite heap_end_exact by done.
  replace fuel with (length pre + S (fuel - S (length pre)))%nat by lia.
  rewrite free_search_chain; try done; try lia.
  2: { intros Hin. apply chain_addrs_lt in Hin. fold a in Hin. lia. }
  destruct (search_locals (heap_offset h) pre (None, 0, 0)) as [[k pa] psz].
  fold a. cbn [free_search].
  destruct (Z.ltb_spec a (heap_offset h + heap_size h)); [|lia].
  rewrite (packet_read_calm 0) by (apply quiet_reads, Hq).
  rewrite cells_reads, Hh0, !Z.eqb_refl. cbn [negb].
  destruct (Z.ltb_spec c 0); [|lia].
  rewrite chain_addrs_app, reads_app. cbn [chain_addrs reads].
  now rewrite cells_reads.
Qed.

(** ** flashheap_alloc_first along a chain *)

(** With the null address [flashheap_alloc_next] is
    [flashheap_alloc_first]. *)
Lemma alloc_next_null (fuel : nat) (h : flashheap) :
  flashheap_alloc_next fuel h 0 = flashheap_alloc_first fuel h.
Proof. reflexivity. Qed.

Lemma walk_alloc_p_chain (lim : Z) (pre : list Z) :
  forall (fuel : nat) (d : flash) (a arg : Z),
    0 <= a ->
    chain (cells d) lim a pre ->
    Forall (fun p => p < 0) pre ->
    calm (length pre) d ->
    exists arg' : Z,
      flashheap_walk (length pre + fuel) lim d a flashheap_alloc_p arg =
      flashheap_walk fuel lim (reads d (chain_addrs a pre)) (chain_end a pre)
                     flashheap_alloc_p arg'.
Proof.
  induction pre as [|p pre IH]; intros fuel d a arg Ha Hc Hn Hq; [now exists arg|].
  destruct Hc as (Hlt & Hp & Hr & Hc).
  apply Forall_cons in Hn as [Hn1 Hn].
  destruct (chain_step a p Ha Hr) as (Hrange & _ & Hskip).
  cbn [length Nat.add flashheap_walk chain_addrs chain_end reads].
  destruct (Z.ltb_spec a lim); [|lia].
  rewrite (packet_read_calm _ _ _ Hq), Hp, Hskip.
  unfold flashheap_alloc_p at 1.
  destruct (Z.leb_spec 0 p); [lia|].
  apply IH; try done.
  - pose proof (after_gt a p). pose proof hsz_pos. lia.
  - now apply calm_moved.
Qed.

(** [flashheap_alloc_first] passes the free packets [pre] and returns the
    address of the allocated packet that follows them; it returns none
    when every packet of the region is free. *)
Lemma alloc_first_chain (h : flashheap) (pre : list Z) (fuel : nat) :
  geometry h ->
  quiet (heap_dev h) ->
  chain (cells (heap_dev h)) (heap_offset h + heap_size h) (heap_offset h) pre ->
  Forall (fun p => p < 0) pre ->
  (length pre < fuel)%nat ->
  (forall c : Z,
     chain (cells (heap_dev h)) (heap_offset h + heap_size h)
           (chain_end (heap_offset h) pre) [c] ->
     0 <= c ->
     option_map fst (flashheap_alloc_first fuel h) =
       Some (chain_end (heap_offset h) pre)) /\
  (heap_offset h + heap_size h <= chain_end (heap_offset h) pre ->
   option_map fst (flashheap_alloc_first fuel h) = Some 0).
Proof.
  intros G Hq Hpre Hn Hfuel. pose proof G as (Ho & Hz & Hlim).
  unfold flashheap_alloc_first. rewrite heap_end_exact by done.
  destruct (walk_alloc_p_chain (heap_offset h + heap_size h) pre
              (S (fuel - S (length pre))) (heap_dev h) (heap_offset h) 0)
    as [arg' E]; try done; try lia.
  replace (length pre + S (fuel - S (length pre)))%nat with fuel in E by lia.
  rewrite E. clear E. cbn [flashheap_walk].
  set (a := chain_end (heap_offset h) pre).
  split.
  - intros c (Hlt & Hc & _) Hpos.
    destruct (Z.ltb_spec a (heap_offset h + heap_size h)); [|lia].
    rewrite (packet_read_calm 0) by (apply quiet_reads, Hq).
    rewrite cells_reads, Hc. unfold flashheap_alloc_p.
    destruct (Z.leb_spec 0 c); [done | lia].
  - intros He. destruct (Z.ltb_spec a (heap_offset h + heap_size h)); [lia | done].
Qed.

(** ** The walk and its clients only read *)

Lemma walk_only_reads {A : Type} (cb : flashheap_callback_t A) (lim : Z)
    (fuel : nat) :
  forall (d : flash) (addr : Z) (arg : A) (r : bool) (arg' : A) (d' : flash),
    flashheap_walk fuel lim d addr cb arg = Some (r, arg', d') ->
    cells d' = cells d /\
    exists rs, Forall is_read rs /\ trace d' = trace d ++ rs.
Proof.
  induction fuel as [|fuel IH]; intros d addr arg r arg' d'; simpl.
  - destruct (addr <? lim); [done|]. intros [= <- <- <-].
    split; [done|]. exists []. now rewrite app_nil_r.
  - destruct (addr <? lim).
    2: { intros [= <- <- <-]. split; [done|]. exists []. now rewrite app_nil_r. }
    destruct (flashheap_packet_read d addr) as [[p|] d1] eqn:R;
      apply packet_read_effect in R as [Hc [ok Ht]].
    + destruct (cb addr p arg) as [stop arg1]. destruct stop.
      * intros [= <- <- <-]. split; [done|].
        exists [EvRead addr ok]. split; [repeat constructor | done].
      * intros E. apply IH in E as [Hc' [rs [Hrs Ht']]].
        split; [congruence|]. exists (EvRead addr ok :: rs).
        split; [now constructor|]. rewrite Ht', Ht, <- app_assoc. done.
    + intros [= <- <- <-]. split; [done|].
      exists [EvRead addr ok]. split; [repeat constructor | done].
Qed.

Lemma only_read_with_dev (h : flashheap) (d : flash) :
  cells d = cells (heap_dev h) ->
  (exists rs, Forall is_read rs /\ trace d = trace (heap_dev h) ++ rs) ->
  only_read h (with_dev h d).
Proof. intros Hc Ht. unfold only_read. simpl. auto. Qed.

(** X1 - The queries never write.  Whatever the device holds and whenever
    it faults, [flashheap_alloc_first], [flashheap_alloc_next],
    [flashheap_alloc_size] and [flashheap_stats] ask the device for reads
    only: when they return, the cells of the device and the fields of the
    heap are what they were. *)
Theorem queries_only_read (fuel : nat) (h : flashheap) (ptr : Z) :
  (forall a h', flashheap_alloc_first fuel h = Some (a, h') -> only_read h h') /\
  (forall a h', flashheap_alloc_next fuel h ptr = Some (a, h') -> only_read h h') /\
  only_read h (snd (flashheap_alloc_size h ptr)) /\
  (forall s h', flashheap_stats fuel h = Some (s, h') -> only_read h h').
Proof.
  assert (F : forall a h', flashheap_alloc_first fuel h = Some (a, h') ->
                           only_read h h').
  { intros a h'. unfold flashheap_alloc_first.
    destruct (flashheap_walk _ _ _ _ _ _) as [[[r x] d]|] eqn:W; [|done].
    apply walk_only_reads in W as [Hc Ht].
    destruct r; intros [= <- <-]; now apply only_read_with_dev. }
  split; [exact F|]. split; [|split].
  - intros a h'. unfold flashheap_alloc_next.
    destruct (ptr =? 0); [apply F|].
    destruct (flashheap_packet_read (heap_dev h) ptr) as [[p|] d] eqn:R;
      apply packet_read_effect in R as [Hc [ok Ht]].
    + destruct (flashheap_walk _ _ _ _ _ _) as [[[r x] d']|] eqn:W; [|done].
      apply walk_only_reads in W as [Hc' [rs [Hrs Ht']]].
      assert (Hall : exists rs0, Forall is_read rs0 /\
                       trace d' = trace (heap_dev h) ++ rs0).
      { exists (EvRead ptr ok :: rs). split; [now constructor|].
        rewrite Ht', Ht, <- app_assoc. done. }
      destruct r; intros [= <- <-]; apply only_read_with_dev;
        try done; congruence.
    + intros [= <- <-]. apply only_read_with_dev; [done|].
      exists [EvRead ptr ok]. split; [repeat constructor | done].
  - unfold flashheap_alloc_size.
    destruct (flashheap_packet_read (heap_dev h) ptr) as [[p|] d] eqn:R;
      apply packet_read_effect in R as [Hc [ok Ht]]; simpl;
      (apply only_read_with_dev; [done|]);
      exists [EvRead ptr ok]; (split; [repeat constructor | done]).
  - intros s h'. unfold flashheap_stats.
    destruct (flashheap_walk _ _ _ _ _ _) as [[[r x] d]|] eqn:W; [|done].
    apply walk_only_reads in W as [Hc Ht].
    intros [= <- <-]. now apply only_read_with_dev.
Qed.

(** ** Statistics *)

Lemma walk_stats_chain (lim : Z) (ps : list Z) :
  forall (fuel : nat) (d : flash) (a : Z) (s : flashheap_stats_t),
    0 <= a ->
    chain (cells d) lim a ps ->
    calm (length ps) d ->
    flashheap_walk (length ps + fuel) lim d a flashheap_stats_helper s =
    flashheap_walk fuel lim (reads d (chain_addrs a ps)) (chain_end a ps)
                   flashheap_stats_helper (fold_left stats_step ps s).
Proof.
  induction ps as [|p ps IH]; intros fuel d a s Ha Hc Hq; [done|].
  destruct Hc as (Hlt & Hp & Hr & Hc).
  destruct (chain_step a p Ha Hr) as (Hrange & _ & Hskip).
  cbn [length Nat.add flashheap_walk chain_addrs chain_end reads fold_left].
  destruct (Z.ltb_spec a lim); [|lia].
  rewrite (packet_read_calm _ _ _ Hq), Hp, Hskip.
  assert (E : flashheap_stats_helper a p s = (false, stats_step s p)).
  { unfold stats_step, flashheap_stats_helper. now destruct (0 <=? p). }
  rewrite E. apply IH; try done.
  - pose proof (after_gt a p). pose proof hsz_pos. lia.
  - now apply calm_moved.
Qed.

Lemma total_cons (x : Z) (l : list Z) : total (x :: l) = x + total l.
Proof. reflexivity. Qed.

Lemma stats_fold (ps : list Z) :
  forall s : flashheap_stats_t,
    fold_left stats_step ps s =
    Stats (alloc_packets s + alloc_packets (stats_of ps))
          (free_packets s + free_packets (stats_of ps))
          (alloc_bytes s + alloc_bytes (stats_of ps))
          (free_bytes s + free_bytes (stats_of ps)).
Proof.
  induction ps as [|p ps IH]; intros s.
  - destruct s; simpl. f_equal; lia.
  - cbn [fold_left]. rewrite IH. unfold stats_of, stats_step, flashheap_stats_helper.
    destruct (Z.leb_spec 0 p) as [Hp|Hp]; cbn [snd alloc_packets free_packets
                                                 alloc_bytes free_bytes].
    + rewrite (filter_cons_True (fun p => 0 <= p)) by done.
      rewrite (filter_cons_False (fun p => p < 0)) by lia.
      cbn [length]. rewrite total_cons. f_equal; lia.
    + rewrite (filter_cons_False (fun p => 0 <= p)) by lia.
      rewrite (filter_cons_True (fun p => p < 0)) by done.
      cbn [length map]. rewrite total_cons. f_equal; lia.
Qed.

Lemma chain_end_total (ps : list Z) (a : Z) :
  chain_end a ps =
  a + hsz * Z.of_nat (length ps)
    + alloc_bytes (stats_of ps) + free_bytes (stats_of ps).
Proof.
  revert a; induction ps as [|p ps IH]; intros a.
  - simpl. lia.
  - cbn [chain_end]. rewrite IH. unfold stats_of, after.
    cbn [alloc_bytes free_bytes].
    destruct (Z_le_dec 0 p) as [Hp|Hp].
    + rewrite (filter_cons_True (fun p => 0 <= p)) by done.
      rewrite (filter_cons_False (fun p => p < 0)) by lia.
      cbn [length]. rewrite total_cons. lia.
    + rewrite (filter_cons_False (fun p => 0 <= p)) by lia.
      rewrite (filter_cons_True (fun p => p < 0)) by lia.
      cbn [length map]. rewrite total_cons. lia.
Qed.

Lemma stats_counts (ps : list Z) :
  alloc_packets (stats_of ps) + free_packets (stats_of ps)
    = Z.of_nat (length ps).
Proof.
  induction ps as [|p ps IH]; [done|].
  unfold stats_of in *. cbn [alloc_packets free_packets] in *.
  destruct (Z_le_dec 0 p) as [Hp|Hp].
  - rewrite (filter_cons_True (fun p => 0 <= p)) by done.
    rewrite (filter_cons_False (fun p => p < 0)) by lia.
    cbn [length]. lia.
  - rewrite (filter_cons_False (fun p => 0 <= p)) by lia.
    rewrite (filter_cons_True (fun p => p < 0)) by lia.
    cbn [length]. lia.
Qed.

Lemma stats_tiled (h : flashheap) (ps : list Z) (fuel : nat) :
  geometry h ->
  quiet (heap_dev h) ->
  tiled h ps ->
  (length ps <= fuel)%nat ->
  flashheap_stats fuel h =
    Some (stats_of ps,
          with_dev h (reads (heap_dev h) (chain_addrs (heap_offset h) ps))).
Proof.
  intros G Hq [Hch He] Hfuel. pose proof G as (Ho & Hz & Hlim).
  unfold flashheap_stats. rewrite heap_end_exact by done.
  replace fuel with (length ps + (fuel - length ps))%nat by lia.
  rewrite walk_stats_chain; try done; try lia.
  rewrite He, stats_fold. cbn [alloc_packets free_packets alloc_bytes
                               free_bytes].
  assert (S0 : Stats (0 + alloc_packets (stats_of ps))
                     (0 + free_packets (stats_of ps))
                     (0 + alloc_bytes (stats_of ps))
                     (0 + free_bytes (stats_of ps)) = stats_of ps).
  { unfold stats_of. simpl. f_equal; lia. }
  rewrite S0.
  destruct (fuel - length ps)%nat; simpl; now rewrite Z.ltb_irrefl.
Qed.

Lemma only_read_reads (h : flashheap) (addrs : list Z) :
  only_read h (with_dev h (reads (heap_dev h) addrs)).
Proof.
  apply only_read_with_dev; [apply cells_reads|].
  rewrite trace_reads. eexists. split; [|done].
  apply Forall_map. now apply Forall_true.
Qed.

(** X2 - The statistics account for the whole region.  On a heap tiled by
    the packets [ps] and a device that does not fault, [flashheap_stats]
    visits every packet (its callback never stops the walk) and reports
    the number and the payload bytes of the allocated packets (header not
    negative) and of the free packets (header negative); it only reads;
    and the bytes it reports, with one header per packet, add up to the
    size of the region. *)
Theorem stats_account (h : flashheap) (ps : list Z) (fuel : nat) :
  geometry h ->
  quiet (heap_dev h) ->
  tiled h ps ->
  (length ps <= fuel)%nat ->
  exists h' : flashheap,
    flashheap_stats fuel h = Some (stats_of ps, h') /\
    only_read h h' /\
    alloc_bytes (stats_of ps) + free_bytes (stats_of ps)
      + hsz * (alloc_packets (stats_of ps) + free_packets (stats_of ps))
    = heap_size h.
Proof.
  intros G Hq T Hfuel.
  eexists. split; [now apply stats_tiled|]. split; [apply only_read_reads|].
  destruct T as [_ He]. rewrite chain_end_total in He.
  rewrite stats_counts. lia.
Qed.

(** ** Erase *)

Lemma stats_of_whole (w : Z) : w < 0 -> stats_of [w] = Stats 0 1 0 (- w).
Proof.
  intros Hw. unfold stats_of.
  rewrite (filter_cons_False (fun p => 0 <= p)) by lia.
  rewrite (filter_cons_True (fun p => p < 0)) by done.
  rewrite !filter_nil. cbn [length map]. rewrite total_cons.
  simpl. f_equal. lia.
Qed.

(** X3 - Erase gives a fresh heap.  Whatever the device held before, on a
    region larger than one header [flashheap_erase] asks for one write,
    that of the header [-(size - hsz)] at [offset].  If that transfer
    faults it returns 0 and the cells are unchanged.  If the device does
    not fault it returns 1 and the region is tiled by one free packet:
    [flashheap_alloc_first] finds no allocation, [flashheap_stats] reports
    no allocated packet and one free packet of [size - hsz] bytes, and a
    request for all of these bytes is served at [offset]. *)
Theorem erase_resets (h : flashheap) (fuel : nat) :
  geometry h ->
  hsz < heap_size h ->
  (1 < fuel)%nat ->
  let whole := - (heap_size h - hsz) in
  exists h1 : flashheap,
    flashheap_erase h = (negb (next_fault (heap_dev h)), h1) /\
    heap_last h1 = heap_last h /\
    trace (heap_dev h1) =
      trace (heap_dev h) ++
      [EvWrite (heap_offset h) (encode hbytes whole)
               (negb (next_fault (heap_dev h)))] /\
    (next_fault (heap_dev h) = true ->
     cells (heap_dev h1) = cells (heap_dev h)) /\
    (quiet (heap_dev h) ->
     tiled h1 [whole] /\
     option_map fst (flashheap_alloc_first fuel h1) = Some 0 /\
     option_map fst (flashheap_stats fuel h1)
       = Some (Stats 0 1 0 (heap_size h - hsz)) /\
     option_map fst (flashheap_alloc fuel h1 (heap_size h - hsz))
       = Some (heap_offset h)).
Proof.
  intros G Hs Hfuel whole.
  pose proof G as (Ho & Hz & Hlim). pose proof hsz_pos as Hh.
  assert (Hw : wrap whole = whole) by (apply wrap_id; unfold whole; lia).
  unfold flashheap_erase. fold whole. rewrite Hw.
  destruct (packet_write_cases (heap_dev h) (heap_offset h) whole)
    as [[F W]|[F W]]; rewrite W, F; cbn [negb];
    (eexists; split; [reflexivity|]); cbn [with_dev heap_last heap_dev trace
                                            cells moved];
    (split; [done|]); (split; [done|]); (split; [done|]).
  { intros Hq. pose proof (calm_next 0 _ (Hq 1%nat)). congruence. }
  intros Hq.
  set (h1 := with_dev h _).
  assert (G1 : geometry h1) by done.
  assert (Q1 : quiet (heap_dev h1)) by now apply quiet_moved.
  assert (T1 : tiled h1 [whole]).
  { apply tiled_whole; [done | simpl; lia |].
    simpl. now rewrite header_at_store_same. }
  split; [exact T1|]. split; [|split].
  - destruct (alloc_first_chain h1 [whole] fuel G1 Q1 (proj1 T1)) as [_ E].
    + repeat constructor. unfold whole. lia.
    + simpl. lia.
    + apply E. destruct T1 as [_ He]. lia.
  - rewrite (stats_tiled h1 [whole] fuel G1 Q1 T1) by (simpl; lia).
    cbn [option_map fst]. rewrite stats_of_whole by (unfold whole; lia).
    do 2 f_equal. unfold whole. lia.
  - rewrite (alloc_found h1 (heap_size h - hsz) [] whole fuel G1 (Q1 _)).
    + done.
    + apply T1.
    + constructor.
    + unfold fits, whole. lia.
    + simpl. lia.
Qed.

(** ** The first allocated packet *)

(** X4 - [flashheap_alloc_first] returns the first allocated packet.  On a
    tiled heap and a device that does not fault it passes the free packets
    and returns the address of the first packet whose header is not
    negative (an empty packet, header 0, counts); when every packet is
    free it returns none.  It only reads. *)
Theorem alloc_first_skips_free (h : flashheap) (pre : list Z) (fuel : nat) :
  geometry h ->
  quiet (heap_dev h) ->
  Forall (fun p => p < 0) pre ->
  (length pre < fuel)%nat ->
  (forall (c : Z) (post : list Z),
     tiled h (pre ++ c :: post) -> 0 <= c ->
     option_map fst (flashheap_alloc_first fuel h)
       = Some (chain_end (heap_offset h) pre)) /\
  (tiled h pre ->
   option_map fst (flashheap_alloc_first fuel h) = Some 0).
Proof.
  intros G Hq Hn Hfuel. split.
  - intros c post [Hch _] Hc.
    apply chain_app in Hch as [Hpre (Hlt & Hh & Hr & _)].
    destruct (alloc_first_chain h pre fuel G Hq Hpre Hn Hfuel) as [E _].
    apply (E c); [simpl; done | done].
  - intros [Hch He].
    destruct (alloc_first_chain h pre fuel G Hq Hch Hn Hfuel) as [_ E].
    apply E. lia.
Qed.

(** ** Free: the rule inside the region, and the refusals *)

Lemma no_adjacent_free_first (c n : Z) (post : list Z) :
  0 <= c ->
  no_adjacent_free (c :: n :: post) ->
  no_adjacent_free
    ((if n <? 0 then [- (c + Z.abs n + hsz)] else [- c; n]) ++ post).
Proof.
  intros Hc (_ & Hpost).
  destruct (Z.ltb_spec n 0) as [Hn|Hn]; cbn [app].
  - now apply (no_adjacent_free_head n).
  - split; [lia | done].
Qed.

(** X5 - Coalescing inside the region.  On a tiled heap and a device that
    does not fault, freeing an allocated packet [c] that lies between two
    packets [p] and [n] of the region succeeds and follows the four-case
    rule: the region is tiled by the same packets with [p], [c], [n]
    replaced by [freed p c n] (both neighbours free: one free packet in
    place of the three; one neighbour free: merged with that one; none:
    the header negated).  If no two free packets were adjacent before,
    none are afterwards. *)
Theorem free_coalesces (h : flashheap) (pre post : list Z) (p c n : Z)
    (fuel : nat) :
  geometry h ->
  quiet (heap_dev h) ->
  tiled h (pre ++ p :: c :: n :: post) ->
  0 <= c ->
  (S (length pre) < fuel)%nat ->
  exists h' : flashheap,
    flashheap_free fuel h (chain_end (heap_offset h) (pre ++ [p])) =
      Some (true, h') /\
    tiled h' (pre ++ freed p c n ++ post) /\
    (no_adjacent_free (pre ++ p :: c :: n :: post) ->
     no_adjacent_free (pre ++ freed p c n ++ post)).
Proof.
  intros G Hq T Hc Hfuel.
  destruct (free_inner h pre post p c n fuel G Hq T Hc Hfuel) as (h' & E & T').
  exists h'. split; [done|]. split; [done|].
  now apply freed_no_adjacent_free.
Qed.

(** X6 - Coalescing at the start of the region.  The first packet has no
    left neighbour: freeing it, when it is allocated and followed by a
    packet [n] of the region, merges it with [n] if [n] is free and
    negates its header otherwise; the tiling and the absence of adjacent
    free packets are kept. *)
Theorem free_first_packet (h : flashheap) (post : list Z) (c n : Z)
    (fuel : nat) :
  geometry h ->
  quiet (heap_dev h) ->
  tiled h (c :: n :: post) ->
  0 <= c ->
  (0 < fuel)%nat ->
  exists h' : flashheap,
    flashheap_free fuel h (heap_offset h) = Some (true, h') /\
    tiled h' ((if n <? 0 then [- (c + Z.abs n + hsz)] else [- c; n]) ++ post) /\
    (no_adjacent_free (c :: n :: post) ->
     no_adjacent_free
       ((if n <? 0 then [- (c + Z.abs n + hsz)] else [- c; n]) ++ post)).
Proof.
  intros G Hq T Hc Hfuel.
  destruct (free_first h post c n fuel G Hq T Hc Hfuel) as (h' & E & T').
  exists h'. split; [done|]. split; [done|].
  now apply no_adjacent_free_first.
Qed.

(** X7 - What [flashheap_free] refuses.  On a tiled heap and a device that
    does not fault, an address that is neither the start of a packet nor
    the end of the region, and the address of a packet that is free
    already, are both refused: the call returns 0 after reads only. *)
Theorem free_refuses (h : flashheap) (ps : list Z) (fuel : nat) :
  geometry h ->
  quiet (heap_dev h) ->
  tiled h ps ->
  (length ps <= fuel)%nat ->
  (forall ptr : Z,
     ~ In ptr (chain_addrs (heap_offset h) ps) ->
     ptr <> heap_offset h + heap_size h ->
     exists h', flashheap_free fuel h ptr = Some (false, h') /\
                only_read h h') /\
  (forall (pre post : list Z) (c : Z),
     ps = pre ++ c :: post -> c < 0 ->
     exists h', flashheap_free fuel h (chain_end (heap_offset h) pre)
                  = Some (false, h') /\
                only_read h h').
Proof.
  intros G Hq T Hfuel. split.
  - intros ptr Hn Hp. eexists.
    split; [exact (free_unknown h ps ptr fuel G Hq T Hn Hp Hfuel)|].
    apply only_read_reads.
  - intros pre post c -> Hc. eexists.
    split; [apply (free_twice h pre post c); try assumption|
            apply only_read_reads].
    rewrite length_app in Hfuel. simpl in Hfuel. lia.
Qed.

(** ** Iterating from an empty packet *)

(** X8 - [flashheap_alloc_next] does not get past an empty allocation.
    When the packet at a non-null address [ptr] inside the region has
    header 0 and the two reads succeed, [flashheap_alloc_next] returns
    [ptr] itself: it advances by the payload length, 0, and finds the same
    packet again. *)
Theorem alloc_next_stays_on_empty (h : flashheap) (ptr : Z) (fuel : nat) :
  ptr <> 0 ->
  - half <= ptr < half ->
  ptr < heap_end h ->
  header_at (cells (heap_dev h)) ptr = 0 ->
  calm 2 (heap_dev h) ->
  (0 < fuel)%nat ->
  exists h' : flashheap,
    flashheap_alloc_next fuel h ptr = Some (ptr, h') /\ only_read h h'.
Proof.
  intros Hp Hr Hlt Hh Hq Hfuel.
  unfold flashheap_alloc_next.
  destruct (Z.eqb_spec ptr 0); [done|].
  rewrite (packet_read_calm 1) by done. rewrite Hh.
  assert (E : wrap (ptr + wabs 0) = ptr).
  { unfold wabs. change (Z.abs 0) with 0.
    rewrite (wrap_id 0) by (pose proof half_pos; lia).
    rewrite Z.add_0_r. now apply wrap_id. }
  rewrite E. destruct fuel as [|fuel]; [lia|]. cbn [flashheap_walk].
  destruct (Z.ltb_spec ptr (heap_end h)); [|lia].
  rewrite (packet_read_calm 0) by now apply calm_moved.
  cbn [cells moved]. rewrite Hh. cbn [flashheap_alloc_p Z.leb Z.compare].
  eexists. split; [reflexivity|].
  apply (only_read_reads h [ptr; ptr]).
Qed.

(** ** Allocation without a free remainder, and allocation undone *)

(** The packets after [taken] has used a free packet whole. *)
Lemma exact_tiles (h : flashheap) (d : flash) (size : Z) (pre post : list Z)
    (c : Z) :
  geometry h ->
  cells d = cells (heap_dev h) ->
  tiled h (pre ++ c :: post) ->
  c < 0 -> size = - c ->
  let a := chain_end (heap_offset h) pre in
  let h' := Heap (taken d a c size) (heap_offset h) (heap_size h) a in
  trace (heap_dev h') = trace d ++ [EvWrite a (encode hbytes size) true] /\
  tiled h' (pre ++ size :: post).
Proof.
  intros G Hd [Hch He] Hc Hs a h'.
  pose proof G as (Ho & Hz & Hlim). pose proof hsz_pos as Hh.
  apply chain_app in Hch as [Hpre Hcp]. fold a in Hcp.
  destruct Hcp as (Hlt & Hhd & Hr & Hpost).
  rewrite chain_end_app in He. fold a in He. cbn [chain_end] in He.
  assert (Ha : 0 <= a).
  { pose proof (chain_end_ge pre (heap_offset h)). unfold a. lia. }
  destruct (chain_step a c Ha Hr) as (Hrange & _ & _).
  assert (Hafter : after a size = after a c) by (unfold after; lia).
  unfold h'. cbn [heap_dev]. unfold taken.
  rewrite (wrap_id (- c)) by lia.
  destruct (Z.eqb_spec size (- c)) as [_|]; [|lia].
  cbn [cells trace moved]. rewrite Hd. split; [done|].
  split; cbn [heap_dev heap_offset heap_size cells moved].
  - apply chain_app. fold a. split; [apply chain_store; [fold a; lia | done]|].
    cbn [chain]. rewrite Hafter, header_at_store_same.
    split; [done|]. split; [apply wrap_id; lia|]. split; [done|].
    apply chain_store; [right; unfold after; lia | done].
  - rewrite chain_end_app. fold a. cbn [chain_end]. now rewrite Hafter.
Qed.

(** The packets after [taken] has split a free packet that leaves exactly
    one header of room: the remainder is an empty packet. *)
Lemma empty_rest_tiles (h : flashheap) (d : flash) (size : Z)
    (pre post : list Z) (c : Z) :
  geometry h ->
  cells d = cells (heap_dev h) ->
  tiled h (pre ++ c :: post) ->
  c < 0 -> 0 <= size -> size + hsz = - c ->
  let a := chain_end (heap_offset h) pre in
  let h' := Heap (taken d a c size) (heap_offset h) (heap_size h) a in
  trace (heap_dev h') =
    trace d ++ [EvWrite (a + hsz + size) (encode hbytes 0) true;
                EvWrite a (encode hbytes size) true] /\
  tiled h' (pre ++ size :: 0 :: post).
Proof.
  intros G Hd [Hch He] Hc Hs Hroom a h'.
  pose proof G as (Ho & Hz & Hlim). pose proof hsz_pos as Hh.
  apply chain_app in Hch as [Hpre Hcp]. fold a in Hcp.
  destruct Hcp as (Hlt & Hhd & Hr & Hpost).
  rewrite chain_end_app in He. fold a in He. cbn [chain_end] in He.
  assert (Ha : 0 <= a).
  { pose proof (chain_end_ge pre (heap_offset h)). unfold a. lia. }
  destruct (chain_step a c Ha Hr) as (Hrange & _ & _).
  pose proof (chain_end_ge post (after a c)) as Hge.
  assert (Hac : after a c = a + hsz - c) by (unfold after; lia).
  unfold h'. cbn [heap_dev]. unfold taken.
  rewrite (wrap_id (- c)) by lia.
  destruct (Z.eqb_spec size (- c)) as [|_]; [lia|].
  rewrite (wrap_id (a + hsz + size)) by lia.
  replace (- (- c - size - hsz)) with 0 by lia.
  rewrite (wrap_id 0) by (pose proof half_pos; lia).
  cbn [cells trace moved]. rewrite Hd.
  set (m := cells (heap_dev h)) in *.
  set (na := a + hsz + size).
  set (m' := store (store m na (encode hbytes 0)) a (encode hbytes size)).
  assert (Hha : header_at m' a = size).
  { unfold m'. rewrite header_at_store_same. apply wrap_id. lia. }
  assert (Hhn : header_at m' na = 0).
  { unfold m'. rewrite header_at_store_other by (unfold na; lia).
    rewrite header_at_store_same. apply wrap_id. pose proof half_pos. lia. }
  split; [now rewrite <- app_assoc|].
  assert (Hnext : after na 0 = after a c) by (unfold after, na; lia).
  split; cbn [heap_dev heap_offset heap_size cells].
  - apply chain_app. fold a. split.
    + unfold m'. apply chain_store; [fold a; lia|].
      apply chain_store; [fold a; unfold na; lia|]. done.
    + cbn [chain].
      replace (after a size) with na by (unfold after, na; lia).
      rewrite Hnext.
      repeat split; try done; try (unfold na; lia).
      unfold m'. apply chain_store; [right; lia|].
      apply chain_store; [right; unfold na; lia|]. done.
  - rewrite chain_end_app. fold a. cbn [chain_end].
    replace (after a size) with na by (unfold after, na; lia).
    now rewrite Hnext.
Qed.

Lemma tiled_prefix (h : flashheap) (pre post : list Z) (c : Z) :
  tiled h (pre ++ c :: post) ->
  chain (cells (heap_dev h)) (heap_offset h + heap_size h) (heap_offset h)
        (pre ++ [c]).
Proof.
  intros [Hch _]. apply chain_app in Hch as [Hpre (? & ? & ? & _)].
  apply chain_app. simpl. done.
Qed.

(** X9 - Allocation that leaves no free remainder.  On a tiled heap and a
    device that does not fault, let [flashheap_alloc] select the free
    packet [c] (no earlier packet fits).  If the request is exactly the
    capacity of [c], one header is written and the packet becomes
    allocated in place.  If the request leaves exactly one header of
    room, the remainder is written as a packet with header 0: an empty
    packet that counts as allocated, not a free one.  In both cases the
    tiling is kept. *)
Theorem alloc_without_remainder (h : flashheap) (size : Z)
    (pre post : list Z) (c : Z) (fuel : nat) :
  geometry h ->
  quiet (heap_dev h) ->
  tiled h (pre ++ c :: post) ->
  Forall (fun p => ~ fits size p) pre ->
  c < 0 ->
  (length pre < fuel)%nat ->
  let a := chain_end (heap_offset h) pre in
  let d1 := reads (heap_dev h) (chain_addrs (heap_offset h) (pre ++ [c])) in
  (size = - c ->
   exists h' : flashheap,
     flashheap_alloc fuel h size = Some (a, h') /\
     trace (heap_dev h') = trace d1 ++ [EvWrite a (encode hbytes size) true] /\
     tiled h' (pre ++ size :: post)) /\
  (0 <= size -> size + hsz = - c ->
   exists h' : flashheap,
     flashheap_alloc fuel h size = Some (a, h') /\
     tiled h' (pre ++ size :: 0 :: post) /\
     (next_fault (heap_dev h') = false ->
      fst (flashheap_alloc_size h' (a + hsz + size)) = 0)).
Proof.
  intros G Hq T Hn Hc Hfuel a d1. pose proof hsz_pos as Hh.
  pose proof (tiled_prefix _ _ _ _ T) as Hall.
  split.
  - intros Hs.
    assert (Hf : fits size c) by (unfold fits; lia).
    pose proof (alloc_found h size pre c fuel G (Hq _) Hall Hn Hf Hfuel) as E.
    eexists. split; [exact E|].
    apply (exact_tiles h d1 size pre post c G (cells_reads _ _) T Hc Hs).
  - intros Hs Hroom.
    assert (Hf : fits size c) by (unfold fits; lia).
    pose proof (alloc_found h size pre c fuel G (Hq _) Hall Hn Hf Hfuel) as E.
    pose proof (empty_rest_tiles h d1 size pre post c G (cells_reads _ _) T Hc
                                 Hs Hroom) as [_ T'].
    cbv zeta in T'. fold a d1 in E, T'.
    set (h' := Heap (taken d1 a c size) (heap_offset h) (heap_size h) a) in *.
    exists h'. split; [exact E|]. split; [exact T'|].
    intros Hf0. unfold flashheap_alloc_size.
    destruct (packet_read_cases (heap_dev h') (a + hsz + size))
      as [[F _]|[_ R]]; [congruence|].
    rewrite R. cbn [fst].
    destruct T' as [Hch' _]. apply chain_app in Hch' as [_ Hch'].
    change (heap_offset h') with (heap_offset h) in Hch'. fold a in Hch'.
    destruct Hch' as (_ & _ & _ & _ & Hz0 & _).
    replace (after a size) with (a + hsz + size) in Hz0 by (unfold after; lia).
    now rewrite Hz0.
Qed.

(** X10 - Free undoes alloc.  On a tiled heap without adjacent free
    packets and a device that does not fault, let [flashheap_alloc] take
    the free packet [c] for a request that either leaves more than one
    header of room, or is exactly the capacity of [c] while [c] is not the
    last packet of the region.  Then [flashheap_free] of the address
    returned succeeds and the region is tiled by the packets it had
    before the allocation. *)
Theorem alloc_then_free_restores (h : flashheap) (size : Z)
    (pre post : list Z) (c : Z) (fuel : nat) :
  geometry h ->
  quiet (heap_dev h) ->
  tiled h (pre ++ c :: post) ->
  no_adjacent_free (pre ++ c :: post) ->
  Forall (fun p => ~ fits size p) pre ->
  c < 0 -> 0 <= size ->
  hsz < - c - size \/ (size = - c /\ post <> []) ->
  (length pre < fuel)%nat ->
  exists h2 h3 : flashheap,
    flashheap_alloc fuel h size =
      Some (chain_end (heap_offset h) pre, h2) /\
    flashheap_free fuel h2 (chain_end (heap_offset h) pre) = Some (true, h3) /\
    tiled h3 (pre ++ c :: post).
Proof.
  intros G Hq T Hinv Hn Hc Hs Hcase Hfuel. pose proof hsz_pos as Hh.
  pose proof (tiled_prefix _ _ _ _ T) as Hall.
  set (a := chain_end (heap_offset h) pre).
  set (d1 := reads (heap_dev h) (chain_addrs (heap_offset h) (pre ++ [c]))).
  set (h2 := Heap (taken d1 a c size) (heap_offset h) (heap_size h) a).
  assert (Hf : fits size c) by (unfold fits; lia).
  pose proof (alloc_found h size pre c fuel G (Hq _) Hall Hn Hf Hfuel) as E.
  fold a d1 h2 in E.
  assert (G2 : geometry h2) by done.
  assert (Q2 : quiet (heap_dev h2)) by (apply taken_quiet, quiet_reads, Hq).
  (* the packets after the allocation: [pre ++ size :: mid ++ post'] with a
     right neighbour that is free exactly when it is the remainder *)
  assert (Hmid : exists (n : Z) (post' : list Z),
             tiled h2 (pre ++ size :: n :: post') /\
             pre ++ c :: post =
               pre ++ (if n <? 0 then [- (size + Z.abs n + hsz)]
                       else [- size; n]) ++ post').
  { destruct Hcase as [Hroom|[Hex Hpost]].
    - exists (- (- c - size - hsz)), post. split.
      + apply (split_tiles h d1 size pre post c G (cells_reads _ _) T Hc Hs
                           Hroom).
      + destruct (Z.ltb_spec (- (- c - size - hsz)) 0); [|lia].
        cbn [app]. do 2 f_equal. lia.
    - destruct post as [|n post']; [done|]. exists n, post'. split.
      + apply (exact_tiles h d1 size pre (n :: post') c G (cells_reads _ _) T
                           Hc Hex).
      + apply no_adjacent_free_app in Hinv as [_ (Hcn & _)].
        destruct (Z.ltb_spec n 0); [lia|]. cbn [app]. do 2 f_equal. lia. }
  destruct Hmid as (n & post' & T2 & Hlist).
  exists h2. 
  assert (Hpre : pre = [] \/ exists pre' p, pre = pre' ++ [p]).
  { destruct pre as [|x l] using rev_ind; [now left | right; eauto]. }
  destruct Hpre as [->|(pre' & p & ->)].
  - destruct (free_first h2 post' size n fuel G2 Q2 T2 Hs ltac:(lia))
      as (h3 & E3 & T3).
    exists h3. split; [exact E|]. split; [exact E3|].
    cbn [app] in Hlist |- *. now rewrite Hlist.
  - assert (T2' : tiled h2 (pre' ++ p :: size :: n :: post')).
    { now rewrite <- app_assoc in T2. }
    rewrite length_app in Hfuel. cbn [length] in Hfuel.
    destruct (free_inner h2 pre' post' p size n fuel G2 Q2 T2' Hs ltac:(lia))
      as (h3 & E3 & T3).
    exists h3. split; [exact E|]. split; [exact E3|].
    assert (Hp : 0 <= p).
    { rewrite <- app_assoc in Hinv.
      apply no_adjacent_free_app in Hinv as [_ (Hpc & _)]. lia. }
    unfold freed in T3. destruct (Z.ltb_spec p 0); [lia|]. cbn [andb] in T3.
    rewrite Hlist. rewrite <- app_assoc. cbn [app].
    destruct (Z.ltb_spec n 0); cbn [app] in T3 |- *; exact T3.
Qed.

(** ** The transfers of flashheap_alloc *)

Lemma alloc_take_transfers (h : flashheap) (d : flash) (addr p size r : Z)
    (h' : flashheap) :
  alloc_take h d addr p size = (r, h') ->
  heap_offset h' = heap_offset h /\ heap_size h' = heap_size h /\
  exists ws : list event,
    Forall is_write ws /\ (length ws <= 2)%nat /\
    trace (heap_dev h') = trace d ++ ws /\
    ((r = 0 /\ heap_last h' = heap_last h /\
      exists ws0 x bs, ws = ws0 ++ [EvWrite x bs false]) \/
     (r = addr /\ heap_last h' = addr /\
      exists ws0, ws = ws0 ++ [EvWrite addr (encode hbytes size) true])).
Proof.
  unfold alloc_take. intros E.
  set (na := wrap (addr + hsz + size)) in *.
  set (np := wrap (- (wrap (- p) - size - hsz))) in *.
  destruct (negb (size =? wrap (- p))).
  - destruct (packet_write_cases d na np) as [[_ W]|[_ W]];
      rewrite W in E; cbn [negb] in E.
    + injection E as <- <-; cbn. split; [done|]. split; [done|].
      exists [EvWrite na (encode hbytes np) false].
      split; [repeat constructor|]. split; [simpl; lia|].
      split; [done|]. left. split; [done|]. split; [done|].
      now exists [], na, (encode hbytes np).
    + set (d1 := moved d _ _) in *.
      destruct (packet_write_cases d1 addr size) as [[_ W2]|[_ W2]];
        rewrite W2 in E; cbn [negb] in E; injection E as <- <-; cbn;
        (split; [done|]); (split; [done|]).
      * exists [EvWrite na (encode hbytes np) true;
                EvWrite addr (encode hbytes size) false].
        split; [repeat constructor|]. split; [simpl; lia|].
        rewrite <- app_assoc. split; [done|].
        left. split; [done|]. split; [done|].
        now exists [EvWrite na (encode hbytes np) true], addr,
                   (encode hbytes size).
      * exists [EvWrite na (encode hbytes np) true;
                EvWrite addr (encode hbytes size) true].
        split; [repeat constructor|]. split; [simpl; lia|].
        rewrite <- app_assoc. split; [done|].
        right. split; [done|]. split; [done|].
        now exists [EvWrite na (encode hbytes np) true].
  - cbn [negb] in E.
    destruct (packet_write_cases d addr size) as [[_ W2]|[_ W2]];
      rewrite W2 in E; cbn [negb] in E; injection E as <- <-; cbn;
      (split; [done|]); (split; [done|]).
    + exists [EvWrite addr (encode hbytes size) false].
      split; [repeat constructor|]. split; [simpl; lia|]. split; [done|].
      left. split; [done|]. split; [done|].
      now exists [], addr, (encode hbytes size).
    + exists [EvWrite addr (encode hbytes size) true].
      split; [repeat constructor|]. split; [simpl; lia|]. split; [done|].
      right. split; [done|]. split; [done|]. now exists [].
Qed.

(** X11 - The transfers of [flashheap_alloc].  Whatever the device holds
    and whenever it faults, [flashheap_alloc] leaves [offset] and [size] of
    the heap alone and asks for a run of reads followed by at most two
    writes.  With no write it returns none and leaves the cells and [last]
    as they were.  Otherwise either the last write faulted, and it returns
    none with [last] unchanged; or the last write is the allocated header
    [size] at the address returned, which is also recorded in [last]. *)
Theorem alloc_transfers (fuel : nat) (h : flashheap) (size r : Z)
    (h' : flashheap) :
  flashheap_alloc fuel h size = Some (r, h') ->
  heap_offset h' = heap_offset h /\ heap_size h' = heap_size h /\
  exists rs ws : list event,
    Forall is_read rs /\ Forall is_write ws /\ (length ws <= 2)%nat /\
    trace (heap_dev h') = trace (heap_dev h) ++ rs ++ ws /\
    ((ws = [] /\ r = 0 /\ heap_last h' = heap_last h /\
      cells (heap_dev h') = cells (heap_dev h)) \/
     (r = 0 /\ heap_last h' = heap_last h /\
      exists ws0 x bs, ws = ws0 ++ [EvWrite x bs false]) \/
     (heap_last h' = r /\
      exists ws0, ws = ws0 ++ [EvWrite r (encode hbytes size) true])).
Proof.
  unfold flashheap_alloc.
  assert (K : forall (d : flash) (addr : Z),
    alloc_loop fuel h d size addr = Some (r, h') ->
    heap_offset h' = heap_offset h /\ heap_size h' = heap_size h /\
    exists rs ws : list event,
      Forall is_read rs /\ Forall is_write ws /\ (length ws <= 2)%nat /\
      trace (heap_dev h') = trace d ++ rs ++ ws /\
      ((ws = [] /\ r = 0 /\ heap_last h' = heap_last h /\
        cells (heap_dev h') = cells d) \/
       (r = 0 /\ heap_last h' = heap_last h /\
        exists ws0 x bs, ws = ws0 ++ [EvWrite x bs false]) \/
       (heap_last h' = r /\
        exists ws0, ws = ws0 ++ [EvWrite r (encode hbytes size) true]))).
  { induction fuel as [|fuel IH]; intros d addr; simpl.
    - destruct (addr <? heap_end h); [done|]. intros [= <- <-].
      split; [done|]. split; [done|]. exists [], [].
      split; [constructor|]. split; [constructor|]. split; [simpl; lia|].
      split; [simpl; now rewrite app_nil_r|]. left. done.
    - destruct (addr <? heap_end h).
      2: { intros [= <- <-]. split; [done|]. split; [done|]. exists [], [].
           split; [constructor|]. split; [constructor|]. split; [simpl; lia|].
           split; [simpl; now rewrite app_nil_r|]. left. done. }
      destruct (flashheap_packet_read d addr) as [[p|] d1] eqn:R;
        apply packet_read_effect in R as [Hc [ok Ht]].
      2: { intros [= <- <-]. split; [done|]. split; [done|].
           exists [EvRead addr ok], []. rewrite app_nil_r.
           split; [repeat constructor|]. split; [constructor|].
           split; [simpl; lia|]. split; [done|]. left. done. }
      destruct ((p <? 0) && (size <=? wrap (- p))).
      + intros [= E].
        apply alloc_take_transfers in E as (Ho & Hs & ws & Hw & Hl & Htr & Hcase).
        split; [done|]. split; [done|]. exists [EvRead addr ok], ws.
        split; [repeat constructor|]. split; [done|]. split; [done|].
        split; [now rewrite Htr, Ht, <- app_assoc|].
        destruct Hcase as [(-> & Hlast & Hf)|(-> & Hlast & Hf)];
          [right; left | right; right]; done.
      + intros E. apply IH in E
          as (Ho & Hs & rs & ws & Hr & Hw & Hl & Htr & Hcase).
        split; [done|]. split; [done|]. exists (EvRead addr ok :: rs), ws.
        split; [now constructor|]. split; [done|]. split; [done|].
        split; [rewrite Htr, Ht, <- !app_assoc; done|].
        destruct Hcase as [(? & ? & ? & Hcells)|[?|?]];
          [left | right; left | right; right]; try done.
        repeat (split; [done|]). congruence. }
  apply K.
Qed.

(** ** A failed allocation *)

Lemma fault_at_next (d : flash) : next_fault d = fault_at 0 d.
Proof. unfold next_fault, fault_at. now destruct (sched d). Qed.

Lemma fault_at_moved (k : nat) (d : flash) (m : gmap Z Z) (ev : event) :
  fault_at k (moved d m ev) = fault_at (S k) d.
Proof. unfold fault_at. simpl. destruct (sched d); [now destruct k | done]. Qed.

Lemma fault_at_reads (addrs : list Z) (k : nat) (d : flash) :
  fault_at k (reads d addrs) = fault_at (length addrs + k) d.
Proof.
  revert k d; induction addrs as [|a addrs IH]; intros k d; simpl; [done|].
  now rewrite IH, fault_at_moved.
Qed.


(** ** The header a merged packet leaves behind *)

(** X13 - After a merge to the left the old header stays.  On a tiled heap
    and a device that does not fault, freeing an allocated packet [c]
    whose left neighbour [p] is free writes the merged header at the
    address of [p] only.  The header of [c] is still stored at its
    address: [flashheap_alloc_size] of the freed address returns [c] as if
    the packet were allocated, while a second [flashheap_free] of it is
    refused, the address being the start of no packet any more. *)
Theorem freed_address_keeps_header (h : flashheap) (pre post : list Z)
    (p c n : Z) (fuel : nat) :
  geometry h ->
  quiet (heap_dev h) ->
  tiled h (pre ++ p :: c :: n :: post) ->
  p < 0 -> 0 <= c ->
  (length (pre ++ p :: c :: n :: post) <= fuel)%nat ->
  let a := chain_end (heap_offset h) (pre ++ [p]) in
  exists h1 h2 : flashheap,
    flashheap_free fuel h a = Some (true, h1) /\
    fst (flashheap_alloc_size h1 a) = c /\
    flashheap_free fuel h1 a = Some (false, h2).
Proof.
  intros G Hq T Hp Hc Hfuel a. pose proof hsz_pos as Hh.
  pose proof G as (Ho & Hz & Hlim).
  rewrite length_app in Hfuel. cbn [length] in Hfuel.
  pose proof T as [Hch He].
  assert (Hsplit : pre ++ p :: c :: n :: post = (pre ++ [p]) ++ [c] ++ n :: post)
    by now rewrite <- app_assoc.
  rewrite Hsplit in Hch.
  apply chain_app in Hch as [Hpre Hch]. fold a in Hch.
  pose proof Hch as (Hlt & Hhc & Hrc & Hltn & Hhn & Hrn & Hpost).
  assert (Hall : chain (cells (heap_dev h)) (heap_offset h + heap_size h)
                       (heap_offset h) ((pre ++ [p]) ++ [c])).
  { apply chain_app. fold a. simpl. done. }
  pose proof (free_at h (pre ++ [p]) c fuel G Hall Hc (Hq _)) as E.
  rewrite length_app in E. cbn [length] in E.
  specialize (E ltac:(lia)). cbv zeta in E. fold a in E.
  rewrite (packet_read_calm 0) in E by (apply quiet_reads, Hq).
  rewrite cells_reads, Hhn in E.
  unfold prev_of in E. rewrite search_locals_app in E. cbn [fst snd] in E.
  set (pa := chain_end (heap_offset h) pre) in *.
  assert (Ha : a = after pa p).
  { unfold a, pa. now rewrite chain_end_app. }
  apply chain_app in Hpre as [Hpre0 (Hltp & Hhp & Hrp & _)].
  fold pa in Hltp, Hhp, Hrp.
  pose proof (chain_end_ge pre (heap_offset h)) as Hgp. fold pa in Hgp.
  assert (Hrange : - half < p < half /\ - half < n < half).
  { split; [apply (chain_step pa p) | apply (chain_step (after a c) n)];
      try done; unfold after in *; lia. }
  set (d1 := moved (reads (heap_dev h)
                      (chain_addrs (heap_offset h) ((pre ++ [p]) ++ [c])))
                   (cells (heap_dev h)) (EvRead (after a c) true)) in E.
  assert (Q1 : quiet d1) by (apply quiet_moved, quiet_reads, Hq).
  unfold coalesce in E.
  destruct (Z.ltb_spec p 0) as [_|]; [|lia].
  (* the header written at the address of [p], and the packets after it *)
  assert (Hw : exists (v : Z) (rest : list Z),
             flashheap_free fuel h a =
               Some (true,
                     with_dev h
                       (moved d1 (store (cells (heap_dev h)) pa
                                        (encode hbytes v))
                              (EvWrite pa (encode hbytes v) true))) /\
             tiled (with_dev h
                       (moved d1 (store (cells (heap_dev h)) pa
                                        (encode hbytes v))
                              (EvWrite pa (encode hbytes v) true)))
                   (pre ++ v :: rest) /\
             after a c <= after pa v /\
             (length rest <= S (length post))%nat).
  { destruct (Z.ltb_spec n 0) as [Hn|Hn]; cbn [andb] in E;
      rewrite wrap_id in E by (unfold after in *; lia);
      rewrite (packet_write_calm 0) in E by apply Q1.
    - exists (- c + (p + n - 2 * hsz)), post. split; [exact E|]. split.
      + apply (merge_tiles h _ pre [p; c; n] post); try done.
        cbn [chain_end]. fold pa. rewrite <- Ha. unfold after in *. lia.
      + split; [unfold after in *; lia | lia].
    - exists (- c + (p - hsz)), (n :: post). split; [exact E|]. split.
      + apply (merge_tiles h _ pre [p; c] (n :: post)); try done.
        cbn [chain_end]. fold pa. rewrite <- Ha. unfold after in *. lia.
      + split; [unfold after in *; lia | simpl; lia]. }
  destruct Hw as (v & rest & E1 & T1 & Hspan & Hlen).
  set (h1 := with_dev h _) in *.
  assert (Q1' : quiet (heap_dev h1)) by (apply quiet_moved, Q1).
  exists h1. eexists. split; [exact E1|]. split.
  - unfold flashheap_alloc_size.
    rewrite (packet_read_calm 0) by apply Q1'. cbn [fst].
    cbn [h1 with_dev heap_dev cells moved].
    rewrite header_at_store_other by (unfold after in *; lia).
    rewrite Hhc. destruct (Z.ltb_spec c 0); [lia | done].
  - apply (free_unknown h1 (pre ++ v :: rest) a fuel); try done.
    + rewrite chain_addrs_app. cbn [chain_addrs heap_offset h1 with_dev].
      fold pa. intros Hin. apply in_app_or in Hin as [Hin|[Hin|Hin]].
      * apply chain_addrs_lt in Hin. fold pa in Hin. unfold after in *. lia.
      * unfold after in *. lia.
      * apply chain_addrs_lt in Hin. unfold after in *. lia.
    + cbn [heap_offset heap_size h1 with_dev]. lia.
    + rewrite length_app. cbn [length]. lia.
Qed.

(** ** Freeing the last packet when nothing negative follows the region *)

(** X14 - Freeing the last packet is right when the value after the region
    is not negative.  On a tiled heap and a device that does not fault,
    let the header that [flashheap_free] reads at [offset + size] be zero
    or positive.  Freeing the allocated last packet then succeeds and
    keeps the tiling: it is merged with its left neighbour if that is
    free, and has its header negated otherwise (also when it is the only
    packet). *)
Theorem free_last_packet_safe (h : flashheap) (c : Z) (fuel : nat) :
  geometry h ->
  quiet (heap_dev h) ->
  0 <= c ->
  0 <= header_at (cells (heap_dev h)) (heap_offset h + heap_size h) ->
  (tiled h [c] -> (0 < fuel)%nat ->
   exists h', flashheap_free fuel h (heap_offset h) = Some (true, h') /\
              tiled h' [- c]) /\
  (forall (pre : list Z) (p : Z),
     tiled h (pre ++ [p; c]) -> (S (length pre) < fuel)%nat ->
     exists h',
       flashheap_free fuel h (chain_end (heap_offset h) (pre ++ [p]))
         = Some (true, h') /\
       tiled h' (pre ++ (if p <? 0 then [- (Z.abs p + c + hsz)]
                         else [p; - c]))).
Proof.
  intros G Hq Hc Hnx. pose proof hsz_pos as Hh.
  pose proof G as (Ho & Hz & Hlim). split.
  - intros T Hfuel. pose proof T as [Hch He].
    pose proof Hch as (Hlt & Hhc & Hrc & _). cbn [chain_end] in He.
    pose proof (free_at h [] c fuel G Hch Hc (Hq _) Hfuel) as E.
    cbv zeta in E. cbn [chain_end app prev_of search_locals fst snd] in E.
    rewrite (packet_read_calm 0) in E by (apply quiet_reads, Hq).
    rewrite cells_reads, He in E.
    unfold coalesce in E. cbn [Z.ltb Z.compare andb] in E.
    destruct (Z.ltb_spec
                (header_at (cells (heap_dev h)) (heap_offset h + heap_size h))
                0); [lia|].
    rewrite (packet_write_calm 0) in E
      by (apply quiet_moved, quiet_reads, Hq).
    eexists. split; [exact E|].
    apply (merge_tiles h _ [] [c] []); try done.
    cbn [chain_end]. unfold after in *. lia.
  - intros pre p T Hfuel. pose proof T as [Hch He].
    assert (Hsplit : pre ++ [p; c] = (pre ++ [p]) ++ [c])
      by now rewrite <- app_assoc.
    rewrite Hsplit in Hch, He.
    pose proof Hch as Hall.
    apply chain_app in Hch as [Hpre (Hlt & Hhc & Hrc & _)].
    rewrite chain_end_app in He. cbn [chain_end] in He.
    set (a := chain_end (heap_offset h) (pre ++ [p])) in *.
    pose proof (free_at h (pre ++ [p]) c fuel G Hall Hc (Hq _)) as E.
    rewrite length_app in E. cbn [length] in E.
    specialize (E ltac:(lia)). cbv zeta in E. fold a in E.
    rewrite (packet_read_calm 0) in E by (apply quiet_reads, Hq).
    rewrite cells_reads, He in E.
    unfold prev_of in E. rewrite search_locals_app in E. cbn [fst snd] in E.
    set (pa := chain_end (heap_offset h) pre) in *.
    assert (Ha : a = after pa p).
    { unfold a, pa. now rewrite chain_end_app. }
    apply chain_app in Hpre as [Hpre0 (Hltp & Hhp & Hrp & _)].
    fold pa in Hltp, Hhp, Hrp.
    pose proof (chain_end_ge pre (heap_offset h)) as Hgp. fold pa in Hgp.
    assert (Hrange : - half < p < half).
    { apply (chain_step pa p); [lia | done]. }
    unfold coalesce in E.
    destruct (Z.ltb_spec
                (header_at (cells (heap_dev h)) (heap_offset h + heap_size h))
                0); [lia|].
    rewrite andb_false_r in E.
    destruct (Z.ltb_spec p 0) as [Hp|Hp];
      rewrite ?wrap_id in E by (unfold after in *; lia);
      rewrite (packet_write_calm 0) in E
        by (apply quiet_moved, quiet_reads, Hq);
      (eexists; split; [exact E|]).
    + replace (pre ++ [- (Z.abs p + c + hsz)])
        with (pre ++ - (Z.abs p + c + hsz) :: []) by done.
      apply (merge_tiles h _ pre [p; c] []); try done.
      * cbn [chain_end]. fold pa. rewrite <- Ha. unfold after in *. lia.
      * cbn [cells moved]. fold pa. do 2 f_equal. lia.
    + replace (pre ++ [p; - c]) with ((pre ++ [p]) ++ - c :: [])
        by now rewrite <- app_assoc.
      apply (merge_tiles h _ (pre ++ [p]) [c] []); try done.
      * rewrite Hsplit in T. exact T.
      * fold a. cbn [chain_end]. unfold after in *. lia.
Qed.

(** ** The addresses handed out *)

Lemma walk_alloc_p_below (lim : Z) (fuel : nat) :
  forall (d : flash) (addr arg x : Z) (d' : flash),
    flashheap_walk fuel lim d addr flashheap_alloc_p arg = Some (true, x, d') ->
    x < lim.
Proof.
  induction fuel as [|fuel IH]; intros d addr arg x d'; simpl.
  - destruct (addr <? lim); done.
  - destruct (Z.ltb_spec addr lim); [|done].
    destruct (flashheap_packet_read d addr) as [[p|] d1]; [|done].
    unfold flashheap_alloc_p at 1. destruct (0 <=? p).
    + now intros [= <- <-].
    + apply IH.
Qed.

(** X15 - Addresses handed out lie below the end of the region.  Whatever
    the device holds and whenever it faults, an address other than the
    null address returned by [flashheap_alloc], [flashheap_alloc_first] or
    [flashheap_alloc_next] is below [offset + size] (as the code computes
    it): each of them returns the address of a header it has read inside
    the loop bound. *)
Theorem addresses_below_end (fuel : nat) (h : flashheap) (size ptr r : Z)
    (h' : flashheap) :
  r <> 0 ->
  (flashheap_alloc fuel h size = Some (r, h') -> r < heap_end h) /\
  (flashheap_alloc_first fuel h = Some (r, h') -> r < heap_end h) /\
  (flashheap_alloc_next fuel h ptr = Some (r, h') -> r < heap_end h).
Proof.
  intros Hr.
  assert (F : flashheap_alloc_first fuel h = Some (r, h') -> r < heap_end h).
  { unfold flashheap_alloc_first.
    destruct (flashheap_walk _ _ _ _ _ _) as [[[s x] d]|] eqn:W; [|done].
    destruct s; intros [= <- <-]; [|done].
    now apply walk_alloc_p_below in W. }
  split; [|split; [exact F|]].
  - clear F. unfold flashheap_alloc.
    generalize (heap_dev h) as d, (heap_offset h) as addr.
    induction fuel as [|fuel IH]; intros d addr; simpl.
    + destruct (addr <? heap_end h); [done|]. now intros [= <- <-].
    + destruct (Z.ltb_spec addr (heap_end h)); [|now intros [= <- <-]].
      destruct (flashheap_packet_read d addr) as [[p|] d1];
        [|now intros [= <- <-]].
      destruct ((p <? 0) && (size <=? wrap (- p))); [|apply IH].
      intros [= E].
      apply alloc_take_transfers in E
        as (_ & _ & ws & _ & _ & _ & [(-> & _)|(-> & _)]); done.
  - unfold flashheap_alloc_next. destruct (ptr =? 0); [exact F|].
    destruct (flashheap_packet_read (heap_dev h) ptr) as [[p|] d];
      [|now intros [= <- <-]].
    destruct (flashheap_walk _ _ _ _ _ _) as [[[s x] d']|] eqn:W; [|done].
    destruct s; intros [= <- <-]; [|done].
    now apply walk_alloc_p_below in W.
Qed.

(** ** A read that faults ends the walk *)

Lemma walk_fault {A : Type} (cb : flashheap_callback_t A) (lim : Z)
    (fuel : nat) (d : flash) (a : Z) (arg : A) :
  a < lim ->
  next_fault d = true ->
  flashheap_walk (S fuel) lim d a cb arg =
    Some (false, arg, moved d (cells d) (EvRead a false)).
Proof.
  intros Hlt Hf. simpl. destruct (Z.ltb_spec a lim); [|lia].
  destruct (packet_read_cases d a) as [[_ E]|[F _]]; [now rewrite E | congruence].
Qed.

Lemma stats_fold_zero (ps : list Z) :
  fold_left stats_step ps (Stats 0 0 0 0) = stats_of ps.
Proof.
  rewrite stats_fold. cbn [alloc_packets free_packets alloc_bytes free_bytes].
  unfold stats_of. simpl. f_equal; lia.
Qed.

(** X18 - A read that faults ends the walk without a trace in the result.
    On a tiled heap, let the reads of the packets [pre] succeed and the
    read of the next packet fault.  [flashheap_stats] then reports the
    statistics of the packets [pre] only, as if the region ended there:
    the result of the walk is dropped.  [flashheap_alloc_first], when the
    packets [pre] are all free, returns none, whatever packets follow.
    Both have only read. *)
Theorem walk_stops_at_fault (h : flashheap) (pre post : list Z) (c : Z)
    (fuel : nat) :
  geometry h ->
  tiled h (pre ++ c :: post) ->
  calm (length pre) (heap_dev h) ->
  fault_at (length pre) (heap_dev h) = true ->
  (length pre < fuel)%nat ->
  (exists h' : flashheap,
     flashheap_stats fuel h = Some (stats_of pre, h') /\ only_read h h') /\
  (Forall (fun p => p < 0) pre ->
   exists h' : flashheap,
     flashheap_alloc_first fuel h = Some (0, h') /\ only_read h h').
Proof.
  intros G [Hch He] Hq Hf Hfuel. pose proof G as (Ho & Hz & Hlim).
  apply chain_app in Hch as [Hpre (Hlt & _)].
  set (d1 := reads (heap_dev h) (chain_addrs (heap_offset h) pre)).
  assert (F1 : next_fault d1 = true).
  { rewrite fault_at_next. unfold d1.
    now rewrite fault_at_reads, chain_addrs_length, Nat.add_0_r. }
  replace fuel with (length pre + S (fuel - S (length pre)))%nat by lia.
  split.
  - unfold flashheap_stats. rewrite heap_end_exact by done.
    destruct (flashheap_walk _ _ _ _ _ _) as [[[r s] d]|] eqn:W.
    + pose proof W as W'. rewrite walk_stats_chain in W'; try done; try lia.
      fold d1 in W'. rewrite walk_fault in W' by done.
      rewrite stats_fold_zero in W'. injection W' as <- <- <-.
      eexists. split; [reflexivity|].
      apply walk_only_reads in W as [Hc Ht]. now apply only_read_with_dev.
    + rewrite walk_stats_chain in W; try done; try lia.
      fold d1 in W. now rewrite walk_fault in W by done.
  - intros Hn. unfold flashheap_alloc_first. rewrite heap_end_exact by done.
    destruct (walk_alloc_p_chain (heap_offset h + heap_size h) pre
                (S (fuel - S (length pre))) (heap_dev h) (heap_offset h) 0)
      as [arg' W']; try done; try lia.
    fold d1 in W'. rewrite walk_fault in W' by done.
    destruct (flashheap_walk _ _ _ _ _ _) as [[[r s] d]|] eqn:W; [|done].
    injection W' as -> -> ->.
    eexists. split; [reflexivity|].
    apply walk_only_reads in W as [Hc Ht]. now apply only_read_with_dev.
Qed.

(** ** A region that starts at address 0 *)

(** X19 - Why the offset cannot be zero.  [flashheap_init] notes that the
    offset cannot be zero but accepts it.  On a heap with [offset] 0 and a
    device that does not fault, let the first packet be free and large
    enough for the request.  [flashheap_alloc] takes it: it writes the
    allocated header at address 0 and records 0 in [last]; and it returns
    0, the value that means no room.  [flashheap_alloc_first] then returns
    0 as well, as for a heap without allocations. *)
Theorem offset_zero_hides_first_packet (heap_data : flashheap) (d : flash)
    (region c size : Z) (fuel : nat) :
  let h := flashheap_init heap_data 0 region d in
  0 < region < half ->
  quiet d ->
  header_at (cells d) 0 = c ->
  - half < c ->
  fits size c ->
  0 <= size ->
  (0 < fuel)%nat ->
  exists h' : flashheap,
    flashheap_alloc fuel h size = Some (0, h') /\
    heap_last h' = 0 /\
    header_at (cells (heap_dev h')) 0 = size /\
    (exists ws : list event,
       ws <> [] /\ Forall is_write ws /\
       trace (heap_dev h') = trace d ++ EvRead 0 true :: ws) /\
    option_map fst (flashheap_alloc_first fuel h') = Some 0.
Proof.
  intros h Hr Hq Hh Hlo Hfit Hs Hfuel. pose proof half_pos as Hhalf.
  pose proof Hfit as [Hneg Hle].
  assert (Hsize : wrap size = size) by (apply wrap_id; lia).
  assert (Hend : heap_end h = region).
  { unfold heap_end, h, flashheap_init. cbn [heap_offset heap_size].
    apply wrap_id. lia. }
  destruct fuel as [|fuel]; [lia|].
  set (d1 := moved d (cells d) (EvRead 0 true)).
  assert (Hq1 : quiet d1) by now apply quiet_moved.
  exists (Heap (taken d1 0 c size) 0 region 0).
  split; [|split; [done|split; [|split]]].
  - assert (Hd : heap_dev h = d) by done.
    assert (Ho : heap_offset h = 0) by done.
    unfold flashheap_alloc. rewrite Hd, Ho. cbn [alloc_loop]. rewrite Hend.
    destruct (Z.ltb_spec 0 region); [|lia].
    rewrite (packet_read_calm 0 d 0) by apply Hq. rewrite Hh.
    assert (T : (c <? 0) && (size <=? wrap (- c)) = true)
      by (apply fits_test; [lia | done]).
    rewrite T. fold d1. rewrite (alloc_take_calm h d1 0 c size) by apply Hq1.
    done.
  - cbn [heap_dev]. now rewrite taken_header.
  - cbn [heap_dev]. unfold taken.
    destruct (size =? wrap (- c)); cbv zeta; cbn [trace moved d1].
    + exists [EvWrite 0 (encode hbytes size) true].
      split; [done|]. split; [repeat constructor|].
      now rewrite <- app_assoc.
    + exists [EvWrite (wrap (0 + hsz + size))
                      (encode hbytes (wrap (- (wrap (- c) - size - hsz)))) true;
              EvWrite 0 (encode hbytes size) true].
      split; [done|]. split; [repeat constructor|].
      now rewrite <- !app_assoc.
  - unfold flashheap_alloc_first, heap_end.
    cbn [heap_dev heap_offset heap_size flashheap_walk].
    rewrite (wrap_id (0 + region)) by lia.
    destruct (Z.ltb_spec 0 (0 + region)); [|lia].
    rewrite (packet_read_calm 0 (taken d1 0 c size) 0)
      by now apply taken_quiet.
    rewrite taken_header, Hsize. unfold flashheap_alloc_p.
    destruct (Z.leb_spec 0 size); [done | lia].
Qed.

(** ** Requests the code does not check *)

(** X20 - [flashheap_alloc] does not reject a negative size.  On a tiled
    heap and a device that does not fault, a request of a negative size
    takes the first free packet, whatever its capacity, and returns its
    address; the header written there is the negative size itself, so the
    packet handed out still reads as free: [flashheap_alloc_size] of the
    address returned is 0. *)
Theorem alloc_negative_size (h : flashheap) (size : Z) (pre post : list Z)
    (c : Z) (fuel : nat) :
  geometry h ->
  quiet (heap_dev h) ->
  tiled h (pre ++ c :: post) ->
  Forall (fun p => 0 <= p) pre ->
  c < 0 ->
  - half <= size < 0 ->
  (length pre < fuel)%nat ->
  let a := chain_end (heap_offset h) pre in
  exists h' : flashheap,
    flashheap_alloc fuel h size = Some (a, h') /\
    heap_last h' = a /\
    header_at (cells (heap_dev h')) a = size /\
    fst (flashheap_alloc_size h' a) = 0.
Proof.
  intros G Hq T Hn Hc Hs Hfuel a.
  pose proof (tiled_prefix _ _ _ _ T) as Hall.
  assert (Hn' : Forall (fun p => ~ fits size p) pre).
  { eapply Forall_impl; [exact Hn|]. intros p Hp [Hneg _].
    cbv beta in Hp. lia. }
  assert (Hf : fits size c) by (unfold fits; lia).
  pose proof (alloc_found h size pre c fuel G (Hq _) Hall Hn' Hf Hfuel) as E.
  fold a in E.
  set (d1 := reads (heap_dev h) (chain_addrs (heap_offset h) (pre ++ [c]))) in *.
  assert (Hh : header_at (cells (taken d1 a c size)) a = size).
  { rewrite taken_header. apply wrap_id. lia. }
  eexists. split; [exact E|]. cbn [heap_last heap_dev].
  split; [done|]. split; [exact Hh|].
  unfold flashheap_alloc_size. cbn [heap_dev].
  rewrite (packet_read_calm 0 (taken d1 a c size) a)
    by (apply taken_quiet, quiet_reads, Hq).
  rewrite Hh. cbn [fst]. destruct (Z.ltb_spec size 0); [done | lia].
Qed.

(** ** The field [last] *)

Lemma alloc_loop_last (h : flashheap) (x size : Z) (fuel : nat) :
  forall (d : flash) (addr : Z),
    outcome (alloc_loop fuel (with_last h x) d size addr) =
    outcome (alloc_loop fuel h d size addr).
Proof.
  induction fuel as [|fuel IH]; intros d addr; simpl;
    change (heap_end (with_last h x)) with (heap_end h);
    destruct (addr <? heap_end h); try done.
  destruct (flashheap_packet_read d addr) as [[p|] d']; [|done].
  destruct ((p <? 0) && (size <=? wrap (- p))); [|apply IH].
  unfold alloc_take.
  destruct (if negb (size =? wrap (- p))
            then packet_write d' (wrap (addr + hsz + size))
                              (wrap (- (wrap (- p) - size - hsz)))
            else (true, d')) as [ok1 d1].
  destruct ok1; [|done]. cbn [negb].
  destruct (packet_write d1 addr size) as [ok2 d2]. now destruct ok2.
Qed.

(** X21 - The field [last] is written and never read.  [flashheap_alloc]
    records the address it returns in [last]; no function of the file
    reads it.  Whatever the device holds and whenever it faults, the value
    returned and the transfers of [flashheap_alloc], [flashheap_free],
    [flashheap_alloc_first] and [flashheap_stats] are the same for every
    value of [last]: every scan starts at [offset]. *)
Theorem last_is_never_read (fuel : nat) (h : flashheap) (x size ptr : Z) :
  outcome (flashheap_alloc fuel (with_last h x) size)
    = outcome (flashheap_alloc fuel h size) /\
  outcome (flashheap_free fuel (with_last h x) ptr)
    = outcome (flashheap_free fuel h ptr) /\
  outcome (flashheap_alloc_first fuel (with_last h x))
    = outcome (flashheap_alloc_first fuel h) /\
  outcome (flashheap_stats fuel (with_last h x))
    = outcome (flashheap_stats fuel h).
Proof.
  split; [apply alloc_loop_last|]. split; [|split].
  - unfold flashheap_free.
    change (heap_end (with_last h x)) with (heap_end h).
    cbn [with_last heap_dev heap_offset].
    destruct (free_search _ _ _ _ _ _ _ _) as [[d|d a p pa ps]|]; try done.
    destruct (negb (a =? ptr)); [done|].
    destruct p as [p0|]; [|done].
    destruct (p0 <? 0); [done|]. cbv zeta.
    destruct (flashheap_packet_read d _) as [[n|] d']; [|done].
    destruct (coalesce _ _ _ _ _) as [a' p'].
    now destruct (packet_write d' a' p') as [ok d''].
  - unfold flashheap_alloc_first.
    change (heap_end (with_last h x)) with (heap_end h).
    cbn [with_last heap_dev heap_offset].
    destruct (flashheap_walk _ _ _ _ _ _) as [[[r y] d]|]; [|done].
    now destruct r.
  - unfold flashheap_stats.
    change (heap_end (with_last h x)) with (heap_end h).
    cbn [with_last heap_dev heap_offset].
    now destruct (flashheap_walk _ _ _ _ _ _) as [[[r y] d]|].
Qed.

End Flashheap.

(** * The RAM device *)

Lemma ram_msd_in_range (amod : Z) (mem : list Z) (addr size : Z) :
  0 <= addr -> 0 <= size ->
  addr + size <= Z.of_nat (length mem) -> addr + size < amod ->
  ((addr + size) mod amod >? Z.of_nat (length mem)) = false /\
  (addr + size <=? Z.of_nat (length mem)) = true.
Proof.
  intros Ha Hs Hin Hm. rewrite Z.mod_small by lia.
  split; [rewrite Z.gtb_ltb; apply Z.ltb_ge; lia | apply Z.leb_le; lia].
Qed.

(** X16 - The RAM device stores what it is given.  For a transfer that
    lies inside the array (and whose end does not wrap), [ram_msd_write]
    moves all the bytes, keeps the length of the array and changes no
    byte outside the range written, and [ram_msd_read] of the same range
    then returns exactly the bytes written. *)
Theorem ram_msd_write_read (amod : Z) (mem : list Z) (addr : Z)
    (buffer : list Z) :
  0 <= addr ->
  addr + Z.of_nat (length buffer) <= Z.of_nat (length mem) ->
  addr + Z.of_nat (length buffer) < amod ->
  exists mem' : list Z,
    ram_msd_write amod mem addr buffer
      = Some (Z.of_nat (length buffer), mem') /\
    length mem' = length mem /\
    ram_msd_read amod mem' addr (Z.of_nat (length buffer))
      = Some (Z.of_nat (length buffer), buffer) /\
    forall i : nat,
      (Z.of_nat i < addr \/ addr + Z.of_nat (length buffer) <= Z.of_nat i) ->
      mem' !! i = mem !! i.
Proof.
  intros Ha Hin Hm.
  set (n := length buffer) in *.
  destruct (ram_msd_in_range amod mem addr (Z.of_nat n)) as [E1 E2];
    try lia.
  unfold ram_msd_write. fold n. rewrite E1, E2.
  set (mem' := take (Z.to_nat addr) mem ++ buffer
                 ++ drop (Z.to_nat (addr + Z.of_nat n)) mem).
  assert (Hlt : length (take (Z.to_nat addr) mem) = Z.to_nat addr).
  { rewrite length_take. lia. }
  assert (Hlen : length mem' = length mem).
  { unfold mem'. rewrite !length_app, Hlt, length_drop. fold n. lia. }
  exists mem'. split; [done|]. split; [done|]. split.
  - unfold ram_msd_read. rewrite Hlen, E1, E2. do 2 f_equal.
    unfold mem'. rewrite drop_app_length' by done.
    rewrite Nat2Z.id. unfold n. now rewrite take_app_length.
  - intros i Hi. unfold mem'. destruct Hi as [Hi|Hi].
    + rewrite lookup_app_l by lia. apply lookup_take_lt. lia.
    + rewrite lookup_app_r by lia. rewrite Hlt.
      rewrite lookup_app_r by (fold n; lia). fold n.
      rewrite lookup_drop. f_equal. lia.
Qed.


(** * The code on concrete heaps

    From here on the header is two bytes wide, as in the scenario of the
    specification. *)

Ltac evaluated :=
  vm_compute;
  repeat match goal with
         | |- _ /\ _ => split
         | |- _ = _ => reflexivity
         | |- _ -> False => let H := fresh in intro H; discriminate H
         | |- True => exact I
         end.

Lemma quiet_no_schedule (d : flash) : sched d = [] -> quiet d.
Proof. intros E n k _. rewrite E. now destruct k. Qed.

(** C1 - The tiling invariant does not survive [flashheap_alloc] when the
    room left over by the request is smaller than a header.  On the heap of
    the scenario, erase and then allocate 97 bytes: both succeed, the free
    packet of 98 bytes is split, and the header of the remainder, the
    positive value 1, is written at 1099, its second byte at 1100, outside
    the region.  The walk then goes 1000, 1099 and on to 1102, past the
    end 1100 of the region, and no sequence of packets tiles the region. *)
Theorem tiling_lost_by_short_remainder :
  let h' := heap_after 2 5 scenario_heap [OpErase; OpAlloc 97] in
  run 2 5 scenario_heap [OpErase; OpAlloc 97] = Some ([1; 1000], h') /\
  flashheap_list 2 5 h' = Some [(1000, 97); (1099, 1)] /\
  skip 2 1099 1 = 1102 /\
  heap_end 2 h' = 1100 /\
  In (EvWrite 1099 [1; 0] true) (trace (heap_dev h')) /\
  forall ps : list Z, ~ tiled 2 h' ps.
Proof.
  intros h'.
  assert (H0 : header_at 2 (cells (heap_dev h')) 1000 = 97) by (vm_compute; reflexivity).
  assert (H1 : header_at 2 (cells (heap_dev h')) 1099 = 1) by (vm_compute; reflexivity).
  assert (Ho : heap_offset h' = 1000) by (vm_compute; reflexivity).
  assert (Hs : heap_size h' = 100) by (vm_compute; reflexivity).
  split; [vm_compute; reflexivity|]. split; [vm_compute; reflexivity|].
  split; [vm_compute; reflexivity|]. split; [vm_compute; reflexivity|].
  split; [vm_compute; tauto|].
  clearbody h'. intros ps [Hc He]. rewrite Ho, Hs in Hc, He.
  destruct ps as [|p ps]; [simpl in He; lia|].
  destruct Hc as (_ & Hp & _ & Hc). rewrite H0 in Hp. subst p.
  cbn [chain_end] in He. change (after 2 1000 97) with 1099 in *.
  destruct ps as [|q ps]; [simpl in He; lia|].
  destruct Hc as (_ & Hq & _ & _). rewrite H1 in Hq. subst q.
  cbn [chain_end] in He. change (after 2 1099 1) with 1102 in He.
  pose proof (chain_end_ge 2 ltac:(lia) ps 1102). lia.
Qed.

(** C2 - The coalescing rule fails for the last packet of the region.  On
    [neighbour_heap], erase and allocate the whole room, 98 bytes: the
    region is tiled by that one allocated packet, which has no neighbour
    on either side.  [flashheap_free] of it succeeds, but instead of the
    negated header -98 it stores -104: it has read the value -4 that lies
    after the region at 1100 and merged it as a free right neighbour,
    98 + 4 + 2.  The free packet now reaches to 1106, past the end 1100 of
    the region. *)
Theorem free_last_merges_past_end :
  let h := heap_after 2 5 neighbour_heap [OpErase; OpAlloc 98] in
  let h' := heap_after 2 5 neighbour_heap [OpErase; OpAlloc 98; OpFree 1000] in
  tiled 2 h [98] /\
  run 2 5 neighbour_heap [OpErase; OpAlloc 98; OpFree 1000] =
    Some ([1; 1000; 1], h') /\
  header_at 2 (cells (heap_dev h')) 1000 = -104 /\
  flashheap_list 2 5 h' = Some [(1000, -104)] /\
  after 2 1000 (-104) = 1106 /\
  ~ tiled 2 h' [-98].
Proof.
  intros h h'.
  split; [evaluated|]. split; [vm_compute; reflexivity|].
  split; [vm_compute; reflexivity|]. split; [vm_compute; reflexivity|].
  split; [vm_compute; reflexivity|].
  intros [(_ & Hh & _) _]. vm_compute in Hh. discriminate Hh.
Qed.

(** C6 - [flashheap_free] accepts the address of the end of the region.
    On the heap of the scenario, erase and allocate the whole room: the
    scan from [offset] meets one packet, at 1000.  The address 1100 is the
    start of no packet, yet [flashheap_free] of 1100 returns success: its
    loop ends with [addr] equal to the address asked for, so the test for
    an unknown address passes, the header of the last packet read stands
    in for the packet, and a header is written at 1100, outside the
    region. *)
Theorem free_accepts_region_end :
  let h := heap_after 2 5 scenario_heap [OpErase; OpAlloc 98] in
  tiled 2 h [98] /\
  chain_addrs 2 1000 [98] = [1000] /\
  flashheap_list 2 5 h = Some [(1000, 98)] /\
  exists h' : flashheap,
    flashheap_free 2 5 h 1100 = Some (true, h') /\
    trace (heap_dev h') =
      trace (heap_dev h) ++
      [EvRead 1000 true; EvRead 1200 true; EvWrite 1100 [155; 255] true].
Proof.
  intros h.
  split; [evaluated|]. split; [reflexivity|]. split; [vm_compute; reflexivity|].
  eexists. split; vm_compute; reflexivity.
Qed.

(** C7 - [flashheap_alloc_next] does not reach the next allocated packet.
    On the heap of the scenario after erase, alloc 30 and alloc 20 the
    region is tiled by an allocated packet at 1000, an allocated packet at
    1032 and a free packet at 1054.  [flashheap_alloc_first] returns 1000.
    [flashheap_alloc_next] of 1000 advances by the payload length only, to
    1030, two bytes before the header at 1032, and reads a header out of
    the last payload bytes of the first packet.  With the payload still
    erased it returns none, although the packet at 1032 is allocated; with
    the payload filled with zeros it returns 1030, which is the address of
    no packet. *)
Theorem alloc_next_misses_packet :
  let h := heap_after 2 5 scenario_heap [OpErase; OpAlloc 30; OpAlloc 20] in
  tiled 2 h [30; 20; -44] /\
  chain_addrs 2 1000 [30; 20; -44] = [1000; 1032; 1054] /\
  option_map fst (flashheap_alloc_first 2 5 h) = Some 1000 /\
  fst (flashheap_alloc_size 2 h 1032) = 20 /\
  option_map fst (flashheap_alloc_next 2 5 h 1000) = Some 0 /\
  tiled 2 (poke h 1002 (replicate 30 0)) [30; 20; -44] /\
  option_map fst (flashheap_alloc_next 2 5 (poke h 1002 (replicate 30 0)) 1000)
    = Some 1030.
Proof.
  intros h.
  split; [evaluated|]. split; [reflexivity|]. split; [vm_compute; reflexivity|].
  split; [vm_compute; reflexivity|]. split; [vm_compute; reflexivity|].
  split; [evaluated | vm_compute; reflexivity].
Qed.

(** C3 as stated fails when the request leaves no more room than a header.
    On the erased heap of the scenario the free packet at 1000 has capacity
    98.  A request of 96 bytes is smaller and is served from it: the header
    written at 1000 + 2 + 96 is 0, the header of an allocated packet of no
    bytes, not of a free packet.  A request of 97 bytes is smaller and is
    served from it: the header written at 1000 + 2 + 97 is the positive
    value 1, and its magnitude is not 98 - 97 - 2. *)
Lemma alloc_split_small_remainder :
  let h := heap_after 2 5 scenario_heap [OpErase] in
  tiled 2 h [-98] /\ 96 < 98 /\ 97 < 98 /\
  (exists h' : flashheap,
     flashheap_alloc 2 5 h 96 = Some (1000, h') /\
     header_at 2 (cells (heap_dev h')) 1000 = 96 /\
     header_at 2 (cells (heap_dev h')) (1000 + 2 + 96) = 0 /\
     ~ header_at 2 (cells (heap_dev h')) (1000 + 2 + 96) < 0 /\
     option_map fst (flashheap_alloc_next 2 5 h' 0) = Some 1000 /\
     fst (flashheap_alloc_size 2 h' 1098) = 0) /\
  (exists h' : flashheap,
     flashheap_alloc 2 5 h 97 = Some (1000, h') /\
     header_at 2 (cells (heap_dev h')) 1000 = 97 /\
     header_at 2 (cells (heap_dev h')) (1000 + 2 + 97) = 1 /\
     ~ (header_at 2 (cells (heap_dev h')) (1000 + 2 + 97) < 0 /\
        Z.abs (header_at 2 (cells (heap_dev h')) (1000 + 2 + 97))
          = 98 - 97 - 2)).
Proof.
  intros h. split; [evaluated|]. split; [lia|]. split; [lia|]. split.
  - eexists. split; [vm_compute; reflexivity|].
    split; [vm_compute; reflexivity|]. split; [vm_compute; reflexivity|].
    split; [vm_compute; discriminate|].
    split; vm_compute; reflexivity.
  - eexists. split; [vm_compute; reflexivity|].
    split; [vm_compute; reflexivity|]. split; [vm_compute; reflexivity|].
    intros [Hneg _]. vm_compute in Hneg. discriminate Hneg.
Qed.

(** C10 as stated fails when the last packet is free already.  On the
    erased heap of the scenario the one packet, at 1000, is free and ends
    exactly at [offset + size] = 1100.  [flashheap_free] of 1000 returns
    failure at its test for a free packet, after the one read of the
    search: it asks for no header at 1100. *)
Lemma free_of_free_last_packet_stops :
  let h := heap_after 2 5 scenario_heap [OpErase] in
  tiled 2 h [-98] /\
  after 2 1000 (-98) = heap_offset h + heap_size h /\
  exists h' : flashheap,
    flashheap_free 2 5 h 1000 = Some (false, h') /\
    trace (heap_dev h') = trace (heap_dev h) ++ [EvRead 1000 true] /\
    forall ok : bool, ~ In (EvRead 1100 ok) (trace (heap_dev h')).
Proof.
  intros h. split; [evaluated|]. split; [vm_compute; reflexivity|].
  eexists. split; [vm_compute; reflexivity|].
  split; [vm_compute; reflexivity|].
  intros ok Hin. vm_compute in Hin.
  destruct Hin as [Hin|[Hin|Hin]]; [discriminate Hin | discriminate Hin | exact Hin].
Qed.

(** C4 as stated fails at its bound.  On the heap of the scenario the size
    96 is [heap_size - 2 * hsz].  Erase, alloc 96 and free 1000 all
    succeed, but the remainder of the split is a packet with header 0 at
    1098, which is not free and is not merged: the region ends up tiled by
    a free packet of 96 bytes and that empty packet, not by the one free
    packet of 98 bytes that erase leaves. *)
Lemma round_trip_fails_at_bound :
  let h1 := heap_after 2 5 scenario_heap [OpErase] in
  let h3 := heap_after 2 5 scenario_heap [OpErase; OpAlloc 96; OpFree 1000] in
  96 <= heap_size scenario_heap - 2 * hsz 2 /\
  run 2 5 scenario_heap [OpErase; OpAlloc 96; OpFree 1000] =
    Some ([1; 1000; 1], h3) /\
  tiled 2 h1 [-98] /\
  tiled 2 h3 [-96; 0] /\
  header_at 2 (cells (heap_dev h3)) 1000 = -96 /\
  ~ tiled 2 h3 [-98].
Proof.
  intros h1 h3. split; [vm_compute; discriminate|].
  split; [vm_compute; reflexivity|]. split; [evaluated|]. split; [evaluated|].
  split; [vm_compute; reflexivity|].
  intros [(_ & Hh & _) _]. vm_compute in Hh. discriminate Hh.
Qed.

(** * The theorems at work on the heaps of the examples *)

Lemma alloc_split_witness :
  let h := heap_after 2 5 scenario_heap [OpErase] in
  tiled 2 h ([] ++ -98 :: []) /\ hsz 2 < - -98 - 30 /\
  exists h' : flashheap,
    flashheap_alloc 2 5 h 30 = Some (1000, h') /\
    header_at 2 (cells (heap_dev h')) 1032 = -66 /\
    tiled 2 h' [30; -66].
Proof.
  intros h.
  assert (T : tiled 2 h ([] ++ -98 :: [])) by evaluated.
  split; [exact T|]. split; [vm_compute; reflexivity|].
  destruct (alloc_split 2 ltac:(lia) h 30 [] [] (-98) 5)
    as (h' & E & _ & _ & Hr & _ & _ & T').
  - evaluated.
  - apply quiet_no_schedule. vm_compute. reflexivity.
  - exact T.
  - constructor.
  - lia.
  - lia.
  - vm_compute. reflexivity.
  - simpl. lia.
  - exists h'. split; [exact E|]. split; [exact Hr | exact T'].
Defined.

Lemma erase_alloc_free_round_trip_witness :
  geometry 2 scenario_heap /\
  0 <= 30 < heap_size scenario_heap - 2 * hsz 2 /\
  exists h1 h2 h3 : flashheap,
    flashheap_erase 2 scenario_heap = (true, h1) /\
    tiled 2 h1 [-98] /\
    flashheap_alloc 2 5 h1 30 = Some (1000, h2) /\
    flashheap_free 2 5 h2 1000 = Some (true, h3) /\
    tiled 2 h3 [-98].
Proof.
  assert (G : geometry 2 scenario_heap) by evaluated.
  assert (R : 0 <= 30 < heap_size scenario_heap - 2 * hsz 2) by evaluated.
  split; [exact G|]. split; [exact R|].
  destruct (erase_alloc_free_round_trip 2 ltac:(lia) scenario_heap 30 5)
    as (h1 & h2 & h3 & E1 & T1 & E2 & E3 & _ & _ & T3).
  - exact G.
  - apply quiet_no_schedule. reflexivity.
  - exact R.
  - lia.
  - exists h1, h2, h3. split; [exact E1|]. split; [exact T1|].
    split; [exact E2|]. split; [exact E3 | exact T3].
Defined.

Lemma alloc_first_fit_witness :
  tiled 2 fragmented_heap [-50; 10; -20] /\
  fits 15 (-50) /\ fits 15 (-20) /\
  (exists h' : flashheap,
     flashheap_alloc 2 5 fragmented_heap 15 = Some (1000, h') /\
     heap_last h' = 1000 /\
     header_at 2 (cells (heap_dev h')) 1000 = 15) /\
  (exists h' : flashheap,
     flashheap_alloc 2 5 fragmented_heap 60 = Some (0, h') /\
     cells (heap_dev h') = cells (heap_dev fragmented_heap)).
Proof.
  assert (T : tiled 2 fragmented_heap [-50; 10; -20]) by evaluated.
  assert (G : geometry 2 fragmented_heap) by evaluated.
  assert (Q : quiet (heap_dev fragmented_heap))
    by (apply quiet_no_schedule; reflexivity).
  split; [exact T|]. split; [unfold fits; lia|]. split; [unfold fits; lia|].
  split.
  - destruct (alloc_first_fit 2 ltac:(lia) fragmented_heap 15 [] 5 G Q)
      as [Found _].
    + exact I.
    + constructor.
    + simpl. lia.
    + destruct (Found (-50)) as (h' & ws & E & L & Hh & _).
      * evaluated.
      * unfold fits. lia.
      * exists h'. split; [exact E|]. split; [exact L | exact Hh].
  - destruct (alloc_first_fit 2 ltac:(lia) fragmented_heap 60 [-50; 10; -20] 5 G Q)
      as [_ Gone].
    + apply T.
    + repeat constructor; unfold fits; lia.
    + simpl. lia.
    + destruct Gone as (h' & E & Hc & _).
      * vm_compute. discriminate.
      * exists h'. split; [exact E | exact Hc].
Defined.

Lemma alloc_size_exact_witness :
  let h := heap_after 2 5 scenario_heap [OpErase] in
  0 <= 30 < half 2 /\
  exists h' : flashheap,
    flashheap_alloc 2 5 h 30 = Some (1000, h') /\
    fst (flashheap_alloc_size 2 h' 1000) = 30.
Proof.
  intros h. assert (R : 0 <= 30 < half 2) by evaluated.
  split; [exact R|].
  eexists. split; [vm_compute; reflexivity|].
  refine (proj1 (alloc_size_exact 2 ltac:(lia) 5 h 30 1000 _ R _ _) _).
  - vm_compute. reflexivity.
  - lia.
  - reflexivity.
Defined.

Lemma free_failure_atomic_witness :
  let h := heap_after 2 5 faulty_heap [OpErase; OpAlloc 30] in
  exists h' : flashheap,
    flashheap_free 2 5 h 1000 = Some (false, h') /\
    last (trace (heap_dev h')) = Some (EvWrite 1000 [158; 255] false) /\
    cells (heap_dev h') = cells (heap_dev h).
Proof.
  intros h. eexists. split; [vm_compute; reflexivity|].
  split; [vm_compute; reflexivity|].
  match goal with
  | |- cells (heap_dev ?x) = _ =>
      destruct (free_failure_atomic 2 ltac:(lia) 5 h 1000 false x)
        as (rs & _ & [(_ & _ & Hc)|(addr & p0 & pa & ps & nx & ok & _ & Hw)])
  end.
  - vm_compute. reflexivity.
  - exact Hc.
  - destruct (coalesce 2 addr (wrap 2 (- p0)) pa ps nx) as [a p].
    destruct Hw as (_ & <- & Hc). exact Hc.
Defined.

Lemma free_last_reads_past_end_witness :
  let h := heap_after 2 5 scenario_heap [OpErase; OpAlloc 98] in
  tiled 2 h ([] ++ [98]) /\
  exists (r : bool) (h' : flashheap),
    flashheap_free 2 5 h 1000 = Some (r, h') /\
    exists (ok : bool) (ws : list event),
      trace (heap_dev h') =
        (trace (heap_dev h) ++ [EvRead 1000 true]) ++ EvRead 1100 ok :: ws.
Proof.
  intros h.
  assert (T : tiled 2 h ([] ++ [98])) by evaluated.
  split; [exact T|].
  destruct (free_last_reads_past_end 2 ltac:(lia) h [] 98 5)
    as (r & h' & E & (ok & ws & Ht & _) & _).
  - evaluated.
  - exact T.
  - lia.
  - intros k _. vm_compute. now destruct k.
  - simpl. lia.
  - exists r, h'. split; [exact E|]. exists ok, ws. exact Ht.
Defined.

(** * The further theorems at work on the heaps of the examples *)

Lemma queries_only_read_witness :
  let h := heap_after 2 5 scenario_heap [OpErase; OpAlloc 30; OpAlloc 20] in
  (exists h' : flashheap,
     flashheap_alloc_first 2 5 h = Some (1000, h') /\ only_read h h') /\
  (exists h' : flashheap,
     flashheap_stats 2 5 h = Some (Stats 2 1 50 44, h') /\ only_read h h').
Proof.
  intros h.
  destruct (queries_only_read 2 ltac:(lia) 5 h 0) as (F & _ & _ & S).
  split.
  - eexists. split; [vm_compute; reflexivity|].
    apply (F 1000). vm_compute. reflexivity.
  - eexists. split; [vm_compute; reflexivity|].
    apply (S (Stats 2 1 50 44)). vm_compute. reflexivity.
Defined.

Lemma stats_account_witness :
  tiled 2 fragmented_heap [-50; 10; -20] /\
  option_map fst (flashheap_stats 2 5 fragmented_heap)
    = Some (Stats 1 2 10 70) /\
  10 + 70 + hsz 2 * (1 + 2) = heap_size fragmented_heap.
Proof.
  assert (T : tiled 2 fragmented_heap [-50; 10; -20]) by evaluated.
  split; [exact T|].
  destruct (stats_account 2 ltac:(lia) fragmented_heap [-50; 10; -20] 5)
    as (h' & E & _ & S).
  - evaluated.
  - apply quiet_no_schedule. reflexivity.
  - exact T.
  - simpl. lia.
  - split; [rewrite E; reflexivity | exact S].
Defined.

Lemma erase_resets_witness :
  geometry 2 scenario_heap /\ hsz 2 < heap_size scenario_heap /\
  exists h1 : flashheap,
    flashheap_erase 2 scenario_heap = (true, h1) /\
    tiled 2 h1 [-98] /\
    option_map fst (flashheap_stats 2 5 h1) = Some (Stats 0 1 0 98) /\
    option_map fst (flashheap_alloc 2 5 h1 98) = Some 1000.
Proof.
  assert (G : geometry 2 scenario_heap) by evaluated.
  assert (L : hsz 2 < heap_size scenario_heap) by evaluated.
  split; [exact G|]. split; [exact L|].
  pose proof (erase_resets 2 ltac:(lia) scenario_heap 5 G L ltac:(lia)) as H.
  cbv zeta in H. destruct H as (h1 & E & _ & _ & _ & Hq).
  destruct Hq as (T & _ & S & A).
  - apply quiet_no_schedule. reflexivity.
  - exists h1. split; [exact E|]. split; [exact T|]. split; [exact S | exact A].
Defined.

Lemma alloc_first_skips_free_witness :
  tiled 2 fragmented_heap ([-50] ++ 10 :: [-20]) /\
  option_map fst (flashheap_alloc_first 2 5 fragmented_heap) = Some 1052.
Proof.
  assert (T : tiled 2 fragmented_heap ([-50] ++ 10 :: [-20])) by evaluated.
  split; [exact T|].
  destruct (alloc_first_skips_free 2 ltac:(lia) fragmented_heap [-50] 5)
    as [F _].
  - evaluated.
  - apply quiet_no_schedule. reflexivity.
  - repeat constructor.
  - simpl. lia.
  - exact (F 10 [-20] T ltac:(lia)).
Defined.

Lemma free_coalesces_witness :
  let h := heap_after 2 5 scenario_heap [OpErase; OpAlloc 30; OpAlloc 20] in
  tiled 2 h ([] ++ 30 :: 20 :: -44 :: []) /\
  exists h' : flashheap,
    flashheap_free 2 5 h 1032 = Some (true, h') /\ tiled 2 h' [30; -66].
Proof.
  intros h.
  assert (T : tiled 2 h ([] ++ 30 :: 20 :: -44 :: [])) by evaluated.
  split; [exact T|].
  destruct (free_coalesces 2 ltac:(lia) h [] [] 30 20 (-44) 5)
    as (h' & E & T' & _).
  - evaluated.
  - apply quiet_no_schedule. vm_compute. reflexivity.
  - exact T.
  - lia.
  - simpl. lia.
  - exists h'. split; [exact E | exact T'].
Defined.

Lemma free_first_packet_witness :
  let h := heap_after 2 5 scenario_heap [OpErase; OpAlloc 30; OpAlloc 20] in
  tiled 2 h (30 :: 20 :: [-44]) /\
  exists h' : flashheap,
    flashheap_free 2 5 h 1000 = Some (true, h') /\ tiled 2 h' [-30; 20; -44].
Proof.
  intros h.
  assert (T : tiled 2 h (30 :: 20 :: [-44])) by evaluated.
  split; [exact T|].
  destruct (free_first_packet 2 ltac:(lia) h [-44] 30 20 5)
    as (h' & E & T' & _).
  - evaluated.
  - apply quiet_no_schedule. vm_compute. reflexivity.
  - exact T.
  - lia.
  - lia.
  - exists h'. split; [exact E | exact T'].
Defined.

Lemma free_refuses_witness :
  let h := heap_after 2 5 scenario_heap [OpErase] in
  tiled 2 h [-98] /\
  (exists h' : flashheap,
     flashheap_free 2 5 h 1004 = Some (false, h') /\ only_read h h') /\
  (exists h' : flashheap,
     flashheap_free 2 5 h 1000 = Some (false, h') /\ only_read h h').
Proof.
  intros h.
  assert (T : tiled 2 h [-98]) by evaluated.
  split; [exact T|].
  destruct (free_refuses 2 ltac:(lia) h [-98] 5) as [U D].
  - evaluated.
  - apply quiet_no_schedule. vm_compute. reflexivity.
  - exact T.
  - simpl. lia.
  - split.
    + apply (U 1004).
      * intros [H|[]]. discriminate H.
      * vm_compute. discriminate.
    + apply (D [] [] (-98)); [reflexivity | lia].
Defined.

Lemma alloc_next_stays_on_empty_witness :
  let h := heap_after 2 5 scenario_heap [OpErase; OpAlloc 96] in
  tiled 2 h [96; 0] /\
  header_at 2 (cells (heap_dev h)) 1098 = 0 /\
  exists h' : flashheap,
    flashheap_alloc_next 2 5 h 1098 = Some (1098, h') /\ only_read h h'.
Proof.
  intros h.
  assert (H0 : header_at 2 (cells (heap_dev h)) 1098 = 0)
    by (vm_compute; reflexivity).
  split; [evaluated|]. split; [exact H0|].
  apply (alloc_next_stays_on_empty 2 ltac:(lia) h 1098 5).
  - lia.
  - evaluated.
  - vm_compute. reflexivity.
  - exact H0.
  - intros k _. vm_compute. now destruct k.
  - lia.
Defined.

Lemma alloc_without_remainder_witness :
  let h := heap_after 2 5 scenario_heap [OpErase] in
  tiled 2 h ([] ++ -98 :: []) /\
  (exists h' : flashheap,
     flashheap_alloc 2 5 h 98 = Some (1000, h') /\ tiled 2 h' [98]) /\
  (exists h' : flashheap,
     flashheap_alloc 2 5 h 96 = Some (1000, h') /\ tiled 2 h' [96; 0]).
Proof.
  intros h.
  assert (T : tiled 2 h ([] ++ -98 :: [])) by evaluated.
  assert (G : geometry 2 h) by evaluated.
  assert (Q : quiet (heap_dev h))
    by (apply quiet_no_schedule; vm_compute; reflexivity).
  split; [exact T|]. split.
  - pose proof (alloc_without_remainder 2 ltac:(lia) h 98 [] [] (-98) 5 G Q T
                  ltac:(constructor) ltac:(lia) ltac:(simpl; lia)) as H.
    cbv zeta in H. destruct H as [Exact _].
    destruct Exact as (h' & E & _ & T'); [lia|].
    exists h'. split; [exact E | exact T'].
  - pose proof (alloc_without_remainder 2 ltac:(lia) h 96 [] [] (-98) 5 G Q T
                  ltac:(constructor) ltac:(lia) ltac:(simpl; lia)) as H.
    cbv zeta in H. destruct H as [_ Empty].
    destruct Empty as (h' & E & T' & _); [lia | vm_compute; reflexivity|].
    exists h'. split; [exact E | exact T'].
Defined.

Lemma alloc_then_free_restores_witness :
  tiled 2 fragmented_heap ([] ++ -50 :: [10; -20]) /\
  no_adjacent_free ([] ++ -50 :: [10; -20]) /\
  exists h2 h3 : flashheap,
    flashheap_alloc 2 5 fragmented_heap 15 = Some (1000, h2) /\
    flashheap_free 2 5 h2 1000 = Some (true, h3) /\
    tiled 2 h3 [-50; 10; -20].
Proof.
  assert (T : tiled 2 fragmented_heap ([] ++ -50 :: [10; -20])) by evaluated.
  assert (N : no_adjacent_free ([] ++ -50 :: [10; -20])) by (simpl; lia).
  split; [exact T|]. split; [exact N|].
  destruct (alloc_then_free_restores 2 ltac:(lia) fragmented_heap 15 []
              [10; -20] (-50) 5) as (h2 & h3 & E2 & E3 & T3).
  - evaluated.
  - apply quiet_no_schedule. reflexivity.
  - exact T.
  - exact N.
  - constructor.
  - lia.
  - lia.
  - left. vm_compute. reflexivity.
  - simpl. lia.
  - exists h2, h3. split; [exact E2|]. split; [exact E3 | exact T3].
Defined.

Lemma alloc_transfers_witness :
  let h := heap_after 2 5 scenario_heap [OpErase] in
  exists h' : flashheap,
    flashheap_alloc 2 5 h 30 = Some (1000, h') /\
    heap_offset h' = 1000 /\ heap_size h' = 100 /\
    exists rs ws : list event,
      Forall is_read rs /\ Forall is_write ws /\ (length ws <= 2)%nat /\
      trace (heap_dev h') = trace (heap_dev h) ++ rs ++ ws.
Proof.
  intros h. eexists. split; [vm_compute; reflexivity|].
  match goal with
  | |- heap_offset ?x = _ /\ _ =>
      destruct (alloc_transfers 2 ltac:(lia) 5 h 30 1000 x)
        as (Ho & Hs & rs & ws & Hr & Hw & Hl & Ht & _)
  end.
  - vm_compute. reflexivity.
  - split; [exact Ho|]. split; [exact Hs|].
    exists rs, ws. split; [exact Hr|]. split; [exact Hw|].
    split; [exact Hl | exact Ht].
Defined.


Lemma freed_address_keeps_header_witness :
  tiled 2 fragmented_heap ([] ++ -50 :: 10 :: -20 :: []) /\
  exists h1 h2 : flashheap,
    flashheap_free 2 5 fragmented_heap 1052 = Some (true, h1) /\
    tiled 2 h1 [-84] /\
    fst (flashheap_alloc_size 2 h1 1052) = 10 /\
    flashheap_free 2 5 h1 1052 = Some (false, h2).
Proof.
  assert (T : tiled 2 fragmented_heap ([] ++ -50 :: 10 :: -20 :: []))
    by evaluated.
  split; [exact T|].
  pose proof (freed_address_keeps_header 2 ltac:(lia) fragmented_heap [] []
                (-50) 10 (-20) 5) as H.
  cbv zeta in H. destruct H as (h1 & h2 & E1 & S & E2).
  - evaluated.
  - apply quiet_no_schedule. reflexivity.
  - exact T.
  - lia.
  - lia.
  - simpl. lia.
  - exists h1, h2. split; [exact E1|]. split.
    + vm_compute in E1. injection E1 as <-. evaluated.
    + split; [exact S | exact E2].
Defined.

Lemma free_last_packet_safe_witness :
  let h := poke (heap_after 2 5 scenario_heap [OpErase; OpAlloc 98])
                1100 [0; 0] in
  tiled 2 h [98] /\
  0 <= header_at 2 (cells (heap_dev h)) (heap_offset h + heap_size h) /\
  exists h' : flashheap,
    flashheap_free 2 5 h 1000 = Some (true, h') /\ tiled 2 h' [-98].
Proof.
  intros h.
  assert (T : tiled 2 h [98]) by evaluated.
  assert (N : 0 <= header_at 2 (cells (heap_dev h))
                     (heap_offset h + heap_size h))
    by (vm_compute; discriminate).
  split; [exact T|]. split; [exact N|].
  destruct (free_last_packet_safe 2 ltac:(lia) h 98 5) as [Single _].
  - evaluated.
  - apply quiet_no_schedule. vm_compute. reflexivity.
  - lia.
  - exact N.
  - apply Single; [exact T | lia].
Defined.

Lemma addresses_below_end_witness :
  let h := heap_after 2 5 scenario_heap [OpErase] in
  exists h' : flashheap,
    flashheap_alloc 2 5 h 30 = Some (1000, h') /\ 1000 < heap_end 2 h.
Proof.
  intros h. eexists. split; [vm_compute; reflexivity|].
  refine (proj1 (addresses_below_end 2 ltac:(lia) 5 h 30 0 1000 _ _) _).
  - lia.
  - vm_compute. reflexivity.
Defined.

Lemma ram_msd_write_read_witness :
  exists mem' : list Z,
    ram_msd_write (2 ^ 32) [1; 2; 3; 4; 5] 1 [9; 8] = Some (2, mem') /\
    mem' = [1; 9; 8; 4; 5] /\
    ram_msd_read (2 ^ 32) mem' 1 2 = Some (2, [9; 8]).
Proof.
  destruct (ram_msd_write_read (2 ^ 32) [1; 2; 3; 4; 5] 1 [9; 8])
    as (mem' & W & _ & R & _).
  - lia.
  - simpl. lia.
  - simpl. lia.
  - exists mem'. split; [exact W|]. split; [|exact R].
    vm_compute in W. injection W as <-. reflexivity.
Defined.


Lemma walk_stops_at_fault_witness :
  let h := with_dev fragmented_heap
             (Flash (cells (heap_dev fragmented_heap)) [false; true] []) in
  tiled 2 h ([-50] ++ 10 :: [-20]) /\
  fault_at (length [-50]) (heap_dev h) = true /\
  (exists h' : flashheap,
     flashheap_stats 2 5 h = Some (Stats 0 1 0 50, h') /\ only_read h h') /\
  (exists h' : flashheap,
     flashheap_alloc_first 2 5 h = Some (0, h') /\ only_read h h').
Proof.
  intros h.
  assert (T : tiled 2 h ([-50] ++ 10 :: [-20])) by evaluated.
  assert (F : fault_at (length [-50]) (heap_dev h) = true) by reflexivity.
  split; [exact T|]. split; [exact F|].
  destruct (walk_stops_at_fault 2 ltac:(lia) h [-50] [-20] 10 5)
    as [S A].
  - evaluated.
  - exact T.
  - intros k Hk. destruct k as [|k]; [reflexivity | simpl in Hk; lia].
  - exact F.
  - simpl. lia.
  - split; [exact S|]. apply A. repeat constructor.
Defined.

Lemma offset_zero_hides_first_packet_witness :
  let d := Flash (store ∅ 0 (encode 2 (-98))) [] [] in
  let h := flashheap_init scenario_heap 0 100 d in
  header_at 2 (cells d) 0 = -98 /\ fits 30 (-98) /\
  exists h' : flashheap,
    flashheap_alloc 2 5 h 30 = Some (0, h') /\
    heap_last h' = 0 /\
    header_at 2 (cells (heap_dev h')) 0 = 30 /\
    option_map fst (flashheap_alloc_first 2 5 h') = Some 0.
Proof.
  intros d h.
  assert (H0 : header_at 2 (cells d) 0 = -98) by (vm_compute; reflexivity).
  assert (Hf : fits 30 (-98)) by (unfold fits; lia).
  split; [exact H0|]. split; [exact Hf|].
  pose proof (offset_zero_hides_first_packet 2 ltac:(lia) scenario_heap d 100
                (-98) 30 5) as H.
  cbv zeta in H. destruct H as (h' & E & L & Hh & _ & A).
  - evaluated.
  - apply quiet_no_schedule. reflexivity.
  - exact H0.
  - vm_compute. reflexivity.
  - exact Hf.
  - lia.
  - lia.
  - exists h'. split; [exact E|]. split; [exact L|]. split; [exact Hh | exact A].
Defined.

Lemma alloc_negative_size_witness :
  let h := heap_after 2 5 scenario_heap [OpErase; OpAlloc 30; OpAlloc 20] in
  tiled 2 h ([30; 20] ++ -44 :: []) /\
  - half 2 <= -5 < 0 /\
  exists h' : flashheap,
    flashheap_alloc 2 5 h (-5) = Some (1054, h') /\
    header_at 2 (cells (heap_dev h')) 1054 = -5 /\
    fst (flashheap_alloc_size 2 h' 1054) = 0.
Proof.
  intros h.
  assert (T : tiled 2 h ([30; 20] ++ -44 :: [])) by evaluated.
  assert (R : - half 2 <= -5 < 0) by evaluated.
  split; [exact T|]. split; [exact R|].
  pose proof (alloc_negative_size 2 ltac:(lia) h (-5) [30; 20] [] (-44) 5) as H.
  cbv zeta in H. destruct H as (h' & E & _ & Hh & Hz).
  - evaluated.
  - apply quiet_no_schedule. vm_compute. reflexivity.
  - exact T.
  - repeat constructor; lia.
  - lia.
  - exact R.
  - simpl. lia.
  - exists h'. split; [exact E|]. split; [exact Hh | exact Hz].
Defined.

Lemma last_is_never_read_witness :
  let h := heap_after 2 5 scenario_heap [OpErase; OpAlloc 30] in
  heap_last h = 1000 /\
  outcome (flashheap_alloc 2 5 (with_last h 0) 20)
    = outcome (flashheap_alloc 2 5 h 20) /\
  option_map fst (flashheap_alloc 2 5 (with_last h 0) 20) = Some 1032.
Proof.
  intros h. split; [vm_compute; reflexivity|].
  split; [|vm_compute; reflexivity].
  exact (proj1 (last_is_never_read 2 5 h 0 20 0)).
Defined.
